(** * lwe8/util: the file-backed key-value [Store] and its eviction helper

    A shallow embedding of the [Store] class of [src/object/index.ts] (with the
    helpers [bfo] and [reduceByts], and the object helpers [_obj]) and the properties of its
    write-buffering, change-detection and byte-budget logic.

    Modelling conventions.
    - Stored values are JSON data ([json]); a JavaScript string is
      represented by the sequence of its UTF-8 bytes, a number by an
      integer.  Values are immutable.
    - A plain JavaScript object is an association list in own-property
      order (insertion order); keys are ordinary property names, i.e.
      neither canonical array indices nor members of [Object.prototype].
    - The backing file is represented by the mapping it decodes to:
      [brotliDecompressSync] after [brotliCompressSync] and [JSON.parse]
      after [JSON.stringify] are lossless on JSON data.
    - Methods take the machine state explicitly; a method that is called
      through the event emitter receives its receiver ([this]) as an
      argument, as Node's [EventEmitter] binds [this] to the emitter.
    - No two fields of an instance ever hold the same object (every
      assignment stores a fresh copy), so an update in place such as
      [delete this._store[key]] is the replacement of the field.
    - The field declared as [private __proto__: {}] is an ordinary own
      field of the instance (class-field semantics), not the prototype
      link. *)

From Stdlib Require Import ZArith Lia Ascii String List Bool DecimalString Sorted.
From stdpp Require Import base option list strings gmap.

Set Warnings "-register-all".

Open Scope Z_scope.
Open Scope string_scope.

(** ** JSON values and plain objects *)

Inductive json : Type :=
| JNull
| JBool (b : bool)
| JNum (n : Z)
| JStr (s : string)
| JArr (elems : list json)
| JObj (props : list (string * json)).

Abbreviation object := (list (string * json)).

Module Obj.

(** [o[k]] restricted to own properties; [None] is [undefined]. *)
Fixpoint get (o : object) (k : string) : option json :=
  match o with
  | [] => None
  | (k', v) :: o' => if String.eqb k' k then Some v else get o' k
  end.

(** [o[k] = v]: an existing property keeps its place, a new one is
    appended. *)
Fixpoint set (o : object) (k : string) (v : json) : object :=
  match o with
  | [] => [(k, v)]
  | (k', v') :: o' =>
      if String.eqb k' k then (k, v) :: o' else (k', v') :: set o' k v
  end.

(** [delete o[k]]. *)
Fixpoint delete (o : object) (k : string) : object :=
  match o with
  | [] => []
  | (k', v') :: o' =>
      if String.eqb k' k then delete o' k else (k', v') :: delete o' k
  end.

(** [Object.keys(o)]. *)
Definition keys (o : object) : list string := map fst o.

(** [Object.keys(o).includes(k)]. *)
Definition has (o : object) (k : string) : bool :=
  existsb (String.eqb k) (keys o).

(** [{ ...target, ...source }] once [target] has been built: the
    properties of [source] are assigned in order. *)
Definition assign (target source : object) : object :=
  fold_left (fun acc kv => set acc (fst kv) (snd kv)) source target.

(** [{ ...o }]. *)
Definition spread (o : object) : object := assign [] o.

(** [o[k]] for a key drawn from [Object.keys(o)]. *)
Definition at_key (o : object) (k : string) : json :=
  match get o k with Some v => v | None => JNull end.

(** No property name occurs twice. *)
Fixpoint nodup_keys (ks : list string) : bool :=
  match ks with
  | [] => true
  | k :: ks' => negb (existsb (String.eqb k) ks') && nodup_keys ks'
  end.

End Obj.

(** Representation invariant of JSON data: at every level, an object has
    no repeated property name. *)
Fixpoint wf_json (v : json) : bool :=
  match v with
  | JArr l => forallb wf_json l
  | JObj o => Obj.nodup_keys (map fst o) && forallb (fun kv => wf_json (snd kv)) o
  | _ => true
  end.

Definition wf_object (o : object) : bool := wf_json (JObj o).

(** ** [JSON.stringify] and [Buffer.byteLength] *)

Definition dquote : ascii := "034"%char.
Definition backslash : ascii := "092"%char.

Definition hex_digit (n : N) : ascii :=
  match n with
  | 0%N => "0" | 1%N => "1" | 2%N => "2" | 3%N => "3" | 4%N => "4"
  | 5%N => "5" | 6%N => "6" | 7%N => "7" | 8%N => "8" | 9%N => "9"
  | 10%N => "a" | 11%N => "b" | 12%N => "c" | 13%N => "d" | 14%N => "e"
  | _ => "f"
  end%char.

(** The two hexadecimal digits of a byte, as [Buffer.toString("hex")] and
    the [\u00XX] escapes print them. *)
Definition hex_byte (c : ascii) : string :=
  let n := N_of_ascii c in
  String (hex_digit (n / 16)) (String (hex_digit (n mod 16)) EmptyString).

(** One character of [QuoteJSONString]. *)
Definition json_escape (c : ascii) : string :=
  let n := N_of_ascii c in
  if (n =? 34)%N then String backslash (String dquote EmptyString)
  else if (n =? 92)%N then String backslash (String backslash EmptyString)
  else if (n =? 8)%N then String backslash "b"
  else if (n =? 9)%N then String backslash "t"
  else if (n =? 10)%N then String backslash "n"
  else if (n =? 12)%N then String backslash "f"
  else if (n =? 13)%N then String backslash "r"
  else if (n <? 32)%N then String backslash ("u00" ++ hex_byte c)
  else String c EmptyString.

Fixpoint json_escape_string (s : string) : string :=
  match s with
  | EmptyString => EmptyString
  | String c s' => json_escape c ++ json_escape_string s'
  end.

Definition json_quote (s : string) : string :=
  String dquote (json_escape_string s ++ String dquote EmptyString).

Definition number_to_string (n : Z) : string :=
  NilZero.string_of_int (Z.to_int n).

Fixpoint join_comma (parts : list string) : string :=
  match parts with
  | [] => EmptyString
  | [p] => p
  | p :: ps => p ++ "," ++ join_comma ps
  end.

Fixpoint JSON_stringify (v : json) : string :=
  match v with
  | JNull => "null"
  | JBool true => "true"
  | JBool false => "false"
  | JNum n => number_to_string n
  | JStr s => json_quote s
  | JArr l => "[" ++ join_comma (map JSON_stringify l) ++ "]"
  | JObj o =>
      "{" ++ join_comma
               (map (fun kv => json_quote (fst kv) ++ ":" ++ JSON_stringify (snd kv)) o)
          ++ "}"
  end.

(** [Buffer.byteLength(s, "utf8")]. *)
Definition byteLength (s : string) : Z := Z.of_nat (String.length s).

(** [function bfo(obj)]. *)
Definition bfo (obj : json) : Z := byteLength (JSON_stringify obj).

(** ** Structural equality: [dequal] on JSON data

    The comparator of the [dequal] package: primitives by [===], arrays by
    length and position, plain objects by own keys (every key of [foo] is
    a key of [bar] with a [dequal] value, and both have as many keys),
    whatever the order of the keys. *)

Fixpoint dequal (foo bar : json) : bool :=
  match foo, bar with
  | JNull, JNull => true
  | JBool a, JBool b => Bool.eqb a b
  | JNum a, JNum b => (a =? b)%Z
  | JStr a, JStr b => String.eqb a b
  | JArr a, JArr b =>
      (fix elems (a b : list json) : bool :=
         match a, b with
         | [], [] => true
         | x :: a', y :: b' => dequal x y && elems a' b'
         | _, _ => false
         end) a b
  | JObj a, JObj b =>
      forallb (fun kv => match Obj.get b (fst kv) with
                         | Some w => dequal (snd kv) w
                         | None => false
                         end) a
      && (length (Obj.keys b) =? length a)%nat
  | _, _ => false
  end.

(** ** [Array.prototype.sort]

    ECMAScript requires the sort to be stable; for a consistent comparator
    the result is therefore determined: the stable sort, here by
    insertion.  [cmp a b <= 0] keeps [a] before [b]. *)

Section Sort.
Context {A : Type} (cmp : A -> A -> Z).

Fixpoint sort_insert (x : A) (l : list A) : list A :=
  match l with
  | [] => [x]
  | y :: l' => if (cmp x y <=? 0)%Z then x :: y :: l' else y :: sort_insert x l'
  end.

Fixpoint js_sort (l : list A) : list A :=
  match l with
  | [] => []
  | x :: l' => sort_insert x (js_sort l')
  end.
End Sort.

(** ** The eviction helper *)

(** The body of the [for (const key of keys)] loop of [reduceByts], with
    its two local variables [reducedObj] and [size]; [break] returns. *)
Fixpoint reduceByts_loop (obj : object) (max : Z) (keys : list string)
    (reducedObj : object) (size : Z) : object :=
  match keys with
  | [] => reducedObj
  | key :: rest =>
      let keySize := bfo (Obj.at_key obj key) in
      if (size + keySize >? max)%Z then reducedObj
      else reduceByts_loop obj max rest
             (Obj.set reducedObj key (Obj.at_key obj key)) (size + keySize)
  end.

(** [function reduceByts(obj, max)]. *)
Definition reduceByts (obj : object) (max : Z) : object :=
  let keys :=
    js_sort (fun a b => bfo (Obj.at_key obj b) - bfo (Obj.at_key obj a))
            (Obj.keys obj) in
  reduceByts_loop obj max keys [] 0.

(** ** The machine: a [Store] instance, the disk and the I/O it performs *)

(** The listeners the constructor registers.  [Listener_reducebyts] is the
    method [Store.prototype.reducebyts] itself, passed without a receiver
    ([this.events.on("bytesLimitOver", this.reducebyts)]). *)
Inductive listener : Type :=
| Listener_reducebyts
| Listener_removedFromTempStorage
| Listener_removedFromFileStorag.

Record Store : Type := mkStore {
  _name : string;
  _store : object;
  _storeDir : string;
  _filePath : string;
  __proto__ : object;
  events : list (string * listener);
  _max : Z
}.

Record Disk : Type := mkDisk {
  dirs : gset string;
  files : gmap string object
}.

(** What an operation does to the outside world, most recent first. *)
Inductive effect : Type :=
| WriteFile (path : string) (content : object)
| Mkdir (path : string)
| Emit (event : string) (args : list string)
| ConsoleLog (msg : string).

Inductive error : Type :=
| TypeError (msg : string).

Inductive outcome (A : Type) : Type :=
| Returned (a : A)
| Threw (e : error).
Arguments Returned {A} a.
Arguments Threw {A} e.

Record Machine : Type := mkMachine {
  self : Store;
  disk : Disk;
  trace : list effect
}.

(** A method body: it may change the instance and the disk, and it either
    returns or throws; a throw keeps the changes made before it. *)
Definition M (A : Type) : Type := Machine -> outcome A * Machine.

Definition ret {A} (a : A) : M A := fun m => (Returned a, m).

Definition bind {A B} (c : M A) (k : A -> M B) : M B :=
  fun m => match c m with
           | (Returned a, m') => k a m'
           | (Threw e, m') => (Threw e, m')
           end.

Definition throw {A} (e : error) : M A := fun m => (Threw e, m).

Declare Scope js_scope.
Delimit Scope js_scope with js.
Notation "'let*' x ':=' c 'in' k" := (bind c (fun x => k))
  (at level 10, x name, c at level 100, k at level 200) : js_scope.
Notation "c ;; k" := (bind c (fun _ => k))
  (at level 100, k at level 200, right associativity) : js_scope.
Open Scope js_scope.

(** [this.f]. *)
Definition this_ {A} (f : Store -> A) : M A := fun m => (Returned (f (self m)), m).

Definition update_self (f : Store -> Store) : M unit :=
  fun m => (Returned tt, mkMachine (f (self m)) (disk m) (trace m)).

(** [this._store = o]. *)
Definition assign__store (o : object) : M unit :=
  update_self (fun s => mkStore (_name s) o (_storeDir s) (_filePath s)
                                (__proto__ s) (events s) (_max s)).

(** [this.__proto__ = o]. *)
Definition assign___proto__ (o : object) : M unit :=
  update_self (fun s => mkStore (_name s) (_store s) (_storeDir s) (_filePath s)
                                o (events s) (_max s)).

Definition perform (e : effect) : M unit :=
  fun m => (Returned tt, mkMachine (self m) (disk m) (e :: trace m)).

Module fs.

(** [fs.existsSync] of a file path. *)
Definition existsSync_file (path : string) : M bool :=
  fun m => (Returned (bool_decide (is_Some (files (disk m) !! path))), m).

(** [fs.existsSync] of a directory path. *)
Definition existsSync_dir (path : string) : M bool :=
  fun m => (Returned (bool_decide (path ∈ dirs (disk m))), m).

(** [fs.mkdirSync(path, { recursive: true })]. *)
Definition mkdirSync (path : string) : M unit :=
  fun m => (Returned tt,
            mkMachine (self m)
                      (mkDisk ({[path]} ∪ dirs (disk m)) (files (disk m)))
                      (Mkdir path :: trace m)).

(** [JSON.parse(zlib.brotliDecompressSync(fs.readFileSync(path)).toString())]
    of a file that exists. *)
Definition read_decoded (path : string) : M object :=
  fun m => (Returned (default [] (files (disk m) !! path)), m).

(** [fs.writeFileSync(path, zlib.brotliCompressSync(JSON.stringify(obj)))]. *)
Definition write_encoded (path : string) (obj : object) : M unit :=
  fun m => (Returned tt,
            mkMachine (self m)
                      (mkDisk (dirs (disk m)) (<[path := obj]> (files (disk m))))
                      (WriteFile path obj :: trace m)).

End fs.

(** ** The [Store] class *)

(** [Buffer.from(fn).toString("hex")]. *)
Fixpoint hex_of_string (fn : string) : string :=
  match fn with
  | EmptyString => EmptyString
  | String c fn' => hex_byte c ++ hex_of_string fn'
  end.

(** [private setFilePath(_dir, fn)]. *)
Definition setFilePath (_dir fn : string) : string :=
  _dir ++ "/$" ++ hex_of_string fn ++ ".br".

(** [constructor(name?: string)]. *)
Definition new_Store (name : option string) : Store :=
  let _name := default "lwe8_store" name in
  let _storeDir := ".lwe8_store" in
  {| _name := _name;
     _storeDir := _storeDir;
     _store := [];
     _filePath := setFilePath _storeDir _name;
     __proto__ := [];
     events := [("bytesLimitOver", Listener_reducebyts);
                ("removedFromTempStorage", Listener_removedFromTempStorage);
                ("removedFromFileStorag", Listener_removedFromFileStorag)];
     _max := 250000 |}.

(** [private firstWrite()]: whether the backing file exists. *)
Definition firstWrite : M bool :=
  let* path := this_ _filePath in
  fs.existsSync_file path.

(** [private checkDir()]. *)
Definition checkDir : M unit :=
  let* dir := this_ _storeDir in
  let* ex := fs.existsSync_dir dir in
  if negb ex then fs.mkdirSync dir else ret tt.

(** [private getFormFile()]: the decoded file, or [{}] without a file. *)
Definition getFormFile : M object :=
  let* path := this_ _filePath in
  let* ex := fs.existsSync_file path in
  if ex then fs.read_decoded path else ret [].

(** [private getNewStore()]: [{ ..._fs, ..._ss }], the file overlaid with
    the buffer. *)
Definition getNewStore : M object :=
  let* fstore := getFormFile in
  let* st := this_ _store in
  let _ss := if (0 <? length (Obj.keys st))%nat then Obj.spread st else [] in
  let _fs := if (0 <? length (Obj.keys fstore))%nat then Obj.spread fstore else [] in
  ret (Obj.assign (Obj.spread _fs) _ss).

(** [private _write(obj)]: write the file, then [this._store = {}]. *)
Definition _write (obj : object) : M unit :=
  let* path := this_ _filePath in
  fs.write_encoded path obj ;;
  assign__store [].

(** The receiver a method body runs with: the instance, or the event
    emitter when the method is called as a listener. *)
Inductive receiver : Type :=
| ThisStore
| ThisEmitter.

(** [this.getNewStore()] on a receiver.  An [EventEmitter] has no member
    [getNewStore]: the call throws. *)
Definition call_getNewStore (this : receiver) : M object :=
  match this with
  | ThisStore => getNewStore
  | ThisEmitter => throw (TypeError "this.getNewStore is not a function")
  end.

(** [private reducebyts()].  ([this._max] is read after
    [this.getNewStore()] has returned, hence on the instance.) *)
Definition reducebyts (this : receiver) : M object :=
  let* _ns := call_getNewStore this in
  let* max := this_ _max in
  ret (reduceByts _ns max).

(** [console.log]. *)
Definition console_log (msg : string) : M unit := perform (ConsoleLog msg).

(** A listener called by the emitter: [handler.apply(this, args)] with the
    emitter as [this]; what the listener returns is dropped. *)
Definition call_listener (l : listener) (args : list string) : M unit :=
  let key := default "undefined" (head args) in
  match l with
  | Listener_reducebyts => let* _reduced := reducebyts ThisEmitter in ret tt
  | Listener_removedFromTempStorage =>
      console_log ("The value of " ++ key ++ " removed from temp storage.")
  | Listener_removedFromFileStorag =>
      console_log ("The value of " ++ key ++ " removed from file storage.")
  end.

Fixpoint call_listeners (registered : list (string * listener))
    (event : string) (args : list string) : M unit :=
  match registered with
  | [] => ret tt
  | (name, l) :: rest =>
      if String.eqb name event
      then call_listener l args ;; call_listeners rest event args
      else call_listeners rest event args
  end.

(** [this.events.emit(event, ...args)]: the listeners registered under
    [event] run synchronously, in registration order. *)
Definition emit (event : string) (args : list string) : M unit :=
  perform (Emit event args) ;;
  let* registered := this_ events in
  call_listeners registered event args.

(** [private emitEvent()]: the byte-budget check. *)
Definition emitEvent : M unit :=
  let* _ns := getNewStore in
  let obyts := bfo (JObj _ns) in
  let* max := this_ _max in
  if (obyts >? max)%Z then emit "bytesLimitOver" [] else ret tt.

(** The two overloads of [set]. *)
Inductive set_args : Type :=
| Set_obj (obj : object)
| Set_key (key : string) (value : json).

(** [set(...args)]; the result [this] is the instance itself. *)
Definition set (args : set_args) : M unit :=
  let* _ns := getNewStore in
  let ns := match args with
            | Set_obj obj => Obj.assign (Obj.spread _ns) obj
            | Set_key key value => Obj.spread (Obj.set _ns key value)
            end in
  assign__store ns.

(** [x ?? undefined]; [None] is [undefined]. *)
Definition nullish_undefined (x : option json) : option json :=
  match x with
  | Some JNull => None
  | Some v => Some v
  | None => None
  end.

(** [get(key)]. *)
Definition get (key : string) : M (option json) :=
  let* _ns := getNewStore in
  ret (nullish_undefined (Obj.get _ns key)).

(** One turn of the [for (const key of args)] loop of [remove]; the local
    [_fs] is threaded through. *)
Definition remove_step (key : string) (_fs : object) : M object :=
  let* st := this_ _store in
  (if Obj.has st key
   then assign__store (Obj.delete st key) ;; emit "removedFromTempStorage" [key]
   else ret tt) ;;
  if Obj.has _fs key
  then let _fs' := Obj.delete _fs key in
       emit "removedFromFileStorage" [key] ;; ret _fs'
  else ret _fs.

Fixpoint remove_loop (args : list string) (_fs : object) : M object :=
  match args with
  | [] => ret _fs
  | key :: rest => let* _fs' := remove_step key _fs in remove_loop rest _fs'
  end.

(** [remove(...args)]. *)
Definition remove (args : list string) : M unit :=
  let* _fs := getFormFile in
  let* _fs := remove_loop args _fs in
  let* p := this_ __proto__ in
  if negb (dequal (JObj _fs) (JObj p))
  then _write _fs ;; assign___proto__ _fs
  else ret tt.

(** [write()]. *)
Definition write : M unit :=
  let* fw := firstWrite in
  if negb fw then
    let* _ns := getNewStore in
    checkDir ;;
    assign___proto__ _ns ;;
    _write _ns ;;
    emitEvent
  else
    let* _ns := getNewStore in
    let* fw' := firstWrite in
    let* p := this_ __proto__ in
    if fw' && negb (dequal (JObj _ns) (JObj p))
    then _write _ns ;; assign___proto__ _ns ;; emitEvent
    else ret tt.


(** ** Running a method *)

Definition result_of {A} (c : M A) (m : Machine) : outcome A := fst (c m).
Definition after {A} (c : M A) (m : Machine) : Machine := snd (c m).

(** A new instance on a given disk. *)
Definition boot (name : option string) (d : Disk) : Machine :=
  mkMachine (new_Store name) d [].

(** The merged view: what [getNewStore] returns in a machine state. *)
Definition merged_view (m : Machine) : object :=
  match result_of getNewStore m with
  | Returned o => o
  | Threw _ => []
  end.

(** The machine once a method has written [obj] to the backing file,
    emptied the buffer and recorded [obj] as the snapshot: what
    [this._write(obj)] and [this.__proto__ = obj] leave, in either order. *)
Definition flushed (m : Machine) (obj : object) : Machine :=
  after (_write obj ;; assign___proto__ obj) m.

(** [delete o[k]] for each [k] of [args], in order. *)
Definition delete_all (o : object) (args : list string) : object :=
  fold_left Obj.delete args o.

(** The instance with its buffer replaced. *)
Definition with_buffer (s : Store) (o : object) : Store :=
  mkStore (_name s) o (_storeDir s) (_filePath s) (__proto__ s) (events s) (_max s).

(** The notifications and log lines of [remove]. *)
Definition is_removal_notice (e : effect) : bool :=
  match e with
  | Emit ev _ =>
      String.eqb ev "removedFromTempStorage" || String.eqb ev "removedFromFileStorage"
  | ConsoleLog _ => true
  | _ => false
  end.

(** The decoded content of the backing file, if the file exists. *)
Definition file_content (m : Machine) : option object :=
  files (disk m) !! _filePath (self m).

Definition is_WriteFile (e : effect) : bool :=
  match e with WriteFile _ _ => true | _ => false end.

(** The number of disk writes in a trace. *)
Definition disk_writes (t : list effect) : nat :=
  length (List.filter is_WriteFile t).

(** The disk writes a method performs from a machine state. *)
Definition writes_by {A} (c : M A) (m : Machine) : nat :=
  (disk_writes (trace (after c m)) - disk_writes (trace m))%nat.

Definition is_Emit (event : string) (e : effect) : bool :=
  match e with Emit ev _ => String.eqb ev event | _ => false end.

(** The number of emissions of [event] in a trace. *)
Definition emissions (event : string) (t : list effect) : nat :=
  length (List.filter (is_Emit event) t).

(** The emissions of [event] a method performs from a machine state. *)
Definition emitted_by {A} (event : string) (c : M A) (m : Machine) : nat :=
  (emissions event (trace (after c m)) - emissions event (trace m))%nat.

(** ** The eviction policy in the words of the specification

    Entries are sorted largest-first by the serialized size of their
    value; they are accepted in that order while the running total stays
    at or under the budget; at the first entry that would exceed it, that
    entry and all the remaining ones are dropped. *)

Definition entry_size (e : string * json) : Z := bfo (snd e).

Definition sort_largest_first (obj : object) : object :=
  js_sort (fun e1 e2 => entry_size e2 - entry_size e1) obj.

Fixpoint greedy_accept (max : Z) (entries : object) (total : Z) : object :=
  match entries with
  | [] => []
  | e :: rest =>
      if (total + entry_size e <=? max)%Z
      then e :: greedy_accept max rest (total + entry_size e)
      else []
  end.

Definition reduce_spec (obj : object) (max : Z) : object :=
  greedy_accept max (sort_largest_first obj) 0.

(** The sum of the entry sizes. *)
Fixpoint total_size (entries : object) : Z :=
  match entries with
  | [] => 0
  | e :: rest => entry_size e + total_size rest
  end.

(** ** Well-formed machine states *)

(** The objects an instance holds and the decoded file are JSON data. *)
Definition wf_machine (m : Machine) : Prop :=
  wf_object (_store (self m)) = true
  /\ wf_object (__proto__ (self m)) = true
  /\ (forall o, file_content m = Some o -> wf_object o = true).

(** The snapshot of an instance that has exclusive use of its file:
    still empty as the constructor left it, or the content last written
    by the instance, which is the content of the file. *)
Definition snapshot_in_sync (m : Machine) : Prop :=
  __proto__ (self m) = [] \/ file_content m = Some (__proto__ (self m)).

(** The instance is as the constructor builds it, up to its buffer and
    its snapshot. *)
Definition constructed (s : Store) : Prop :=
  _filePath s = setFilePath (_storeDir s) (_name s)
  /\ _storeDir s = ".lwe8_store"
  /\ events s = events (new_Store None)
  /\ _max s = 250000.

(** The states an instance reaches while it has exclusive use of its
    backing file. *)
Definition invariant (m : Machine) : Prop :=
  constructed (self m) /\ wf_machine m /\ snapshot_in_sync m.

(** The arguments of [set] are JSON data. *)
Definition wf_set_args (args : set_args) : bool :=
  match args with
  | Set_obj obj => wf_object obj
  | Set_key _ value => wf_json value
  end.

(** The public calls on an instance, and the states they lead to from a
    new instance on a disk of JSON files.  A call that throws leaves the
    state it had reached; the caller may go on. *)
Inductive call : Type :=
| Call_set (args : set_args)
| Call_get (key : string)
| Call_remove (keys : list string)
| Call_write.

Definition wf_call (c : call) : bool :=
  match c with
  | Call_set args => wf_set_args args
  | _ => true
  end.

Definition run_call (c : call) (m : Machine) : Machine :=
  match c with
  | Call_set args => after (set args) m
  | Call_get key => after (get key) m
  | Call_remove keys => after (remove keys) m
  | Call_write => after write m
  end.

Definition wf_disk (d : Disk) : Prop :=
  forall p o, files d !! p = Some o -> wf_object o = true.

Inductive reachable (name : option string) (d : Disk) : Machine -> Prop :=
| reachable_boot : reachable name d (boot name d)
| reachable_call (m : Machine) (c : call) :
    reachable name d m -> wf_call c = true -> reachable name d (run_call c m).

(** The buffer [set] leaves. *)
Definition set_buffer (args : set_args) (_ns : object) : object :=
  match args with
  | Set_obj obj => Obj.assign (Obj.spread _ns) obj
  | Set_key key value => Obj.spread (Obj.set _ns key value)
  end.

(** [write] has something to persist: there is no file yet, or the merged
    view differs from the snapshot. *)
Definition persisting (m : Machine) : Prop :=
  file_content m = None
  \/ dequal (JObj (merged_view m)) (JObj (__proto__ (self m))) = false.

(** ** Sample data *)

(** A string of [n] letters [x]. *)
Fixpoint letters (n : nat) : string :=
  match n with
  | O => EmptyString
  | S n' => String "x" (letters n')
  end.

(** A JSON string value whose serialization takes [n + 2] bytes. *)
Definition text_value (n : Z) : json := JStr (letters (Z.to_nat n)).

Definition empty_disk : Disk := mkDisk ∅ ∅.

(** [new Store("s")] on an empty disk. *)
Definition fresh_store : Machine := boot (Some "s") empty_disk.


(** [new Store("s").set("big", v)] on an empty disk. *)
Definition store_with_big (v : json) : Machine :=
  after (set (Set_key "big" v)) fresh_store.

(** A disk on which the file of the store ["s"] holds [content]. *)
Definition disk_with (content : object) : Disk :=
  mkDisk {[ ".lwe8_store" ]} {[ ".lwe8_store/$73.br" := content ]}.

(** A new instance ["s"] whose file holds [{a: 1, big: v}], as an earlier
    [write] of that mapping leaves it. *)
Definition store_on_big_file (v : json) : Machine :=
  boot (Some "s") (disk_with [("a", JNum 1); ("big", v)]).

(** [s.set({a: 1, b: 2}); s.write(); s.set({c: 3})] on an empty disk. *)
Definition pending_c : Machine :=
  after (set (Set_obj [("c", JNum 3)]))
    (after write
       (after (set (Set_obj [("a", JNum 1); ("b", JNum 2)])) fresh_store)).

(** [s.set({a: 1})] on an empty disk. *)
Definition pending_a : Machine :=
  after (set (Set_obj [("a", JNum 1)])) fresh_store.


(** [new Store("s").set({b: 2})] where the file holds [{a: 1}]. *)
Definition pending_b_on_file : Machine :=
  after (set (Set_obj [("b", JNum 2)])) (boot (Some "s") (disk_with [("a", JNum 1)])).

(** A small mapping for the eviction helper. *)
Definition small_entries : object :=
  [("a", JStr "hello"); ("b", JNum 1); ("c", JStr "hello world!")].

(** ** Records whose values are of any type

    The helpers of [_obj] build objects whose properties hold values that
    are not JSON data (a property may be [undefined]); their own
    properties, in insertion order, with the same reading and assignment
    as [Obj]. *)

Module Rec.
Section Generic.
Context {V : Type}.

(** [o[k]] restricted to own properties. *)
Fixpoint get (o : list (string * V)) (k : string) : option V :=
  match o with
  | [] => None
  | (k', v) :: o' => if String.eqb k' k then Some v else get o' k
  end.

(** [o[k] = v]. *)
Fixpoint set (o : list (string * V)) (k : string) (v : V) : list (string * V) :=
  match o with
  | [] => [(k, v)]
  | (k', v') :: o' =>
      if String.eqb k' k then (k, v) :: o' else (k', v') :: set o' k v
  end.

(** [Object.keys(o)]. *)
Definition keys (o : list (string * V)) : list string := map fst o.

End Generic.
End Rec.

(** ** The object helpers [_obj] *)

(** A property value that may be [undefined]. *)
Abbreviation undefinable := (option json).

(** A document with its links: an object whose properties may hold
    [undefined]. *)
Abbreviation linked_doc := (list (string * undefinable)).

Module _obj.

(** [keys[i + 1] || undefined]: an index out of range reads [undefined],
    and the empty string is falsy. *)
Definition or_undefined (key : option string) : undefinable :=
  match key with
  | Some k => if String.eqb k "" then None else Some (JStr k)
  | None => None
  end.

(** [{ ...doc }] into an object whose properties may hold [undefined]. *)
Definition spread_doc (doc : object) : linked_doc :=
  fold_left (fun acc kv => Rec.set acc (fst kv) (Some (snd kv))) doc [].

(** One turn of the [for (let i = 0; i < len; i++)] loop of
    [addNextPrevious]. *)
Definition addNextPrevious_step (docs : list (string * object)) (keys : list string)
    (result : list (string * linked_doc)) (i : nat) : list (string * linked_doc) :=
  let key := default "undefined" (keys !! i) in
  let doc := default [] (Rec.get docs key) in
  Rec.set result key
    (Rec.set
       (Rec.set (spread_doc doc) "nextKey" (or_undefined (keys !! (i + 1)%nat)))
       "previousKey"
       (if (0 <? i)%nat then JStr <$> keys !! (i - 1)%nat else None)).

(** [addNextPrevious(docs)], for documents that are plain objects. *)
Definition addNextPrevious (docs : list (string * object)) : list (string * linked_doc) :=
  let keys := Rec.keys docs in
  fold_left (addNextPrevious_step docs keys) (seq 0 (length keys)) [].

(** [mapObject(object, fn)]; [Object.entries] lists the own properties in
    order. *)
Definition mapObject (o : object) (fn : json -> string -> object -> json) : object :=
  fold_left (fun result kv => Obj.set result (fst kv) (fn (snd kv) (fst kv) o)) o [].

(** [mapValues(object, fn)]: each property holds the array
    [[key, fn(value, key, object)]]. *)
Definition mapValues (o : object) (fn : json -> string -> object -> json) : object :=
  mapObject o (fun value key o' => JArr [JStr key; fn value key o']).

End _obj.

(** ** Reading a hexadecimal file name back *)

(** The value of a lower-case hexadecimal digit, from its character
    code. *)
Definition unhex_digit (c : ascii) : option N :=
  let n := N_of_ascii c in
  if ((48 <=? n) && (n <=? 57))%N then Some (n - 48)%N
  else if ((97 <=? n) && (n <=? 102))%N then Some (n - 87)%N
  else None.

(** [Buffer.from(hex, "hex").toString()] on a string of digit pairs. *)
Fixpoint string_of_hex (hex : string) : option string :=
  match hex with
  | EmptyString => Some EmptyString
  | String h (String l rest) =>
      match unhex_digit h, unhex_digit l, string_of_hex rest with
      | Some a, Some b, Some s => Some (String (ascii_of_N (16 * a + b)) s)
      | _, _, _ => None
      end
  | String _ EmptyString => None
  end.

(** ** Directories created and lines logged *)

Definition is_Mkdir (e : effect) : bool :=
  match e with Mkdir _ => true | _ => false end.

(** The lines [console.log] printed in a trace, most recent first. *)
Definition logged (t : list effect) : list string :=
  omap (fun e => match e with ConsoleLog msg => Some msg | _ => None end) t.

(** The events emitted in a trace with their arguments, most recent
    first. *)
Definition emitted (t : list effect) : list (string * list string) :=
  omap (fun e => match e with Emit ev args => Some (ev, args) | _ => None end) t.

(** ** What an instance never changes *)

(** The fields the constructor sets and no method assigns. *)
Definition identity (s : Store) : string * string * string * list (string * listener) * Z :=
  (_name s, _storeDir s, _filePath s, events s, _max s).

(** * Properties *)

Open Scope list_scope.
Open Scope Z_scope.

(** ** Plain objects *)

Lemma has_elem_of (o : object) (k : string) :
  Obj.has o k = true <-> k ∈ Obj.keys o.
Proof.
  unfold Obj.has, Obj.keys.
  induction o as [|[k' v] o IH]; simpl.
  - split; [discriminate | intros H; inversion H].
  - rewrite orb_true_iff, IH, elem_of_cons, String.eqb_eq. tauto.
Qed.

Lemma has_false (o : object) (k : string) :
  Obj.has o k = false <-> k ∉ Obj.keys o.
Proof.
  rewrite <- has_elem_of. destruct (Obj.has o k); split; auto; try discriminate.
  intros H; exfalso; auto.
Qed.

Lemma nodup_keys_NoDup (ks : list string) :
  Obj.nodup_keys ks = true <-> NoDup ks.
Proof.
  induction ks as [|k ks IH]; simpl.
  - split; [constructor | reflexivity].
  - rewrite andb_true_iff, negb_true_iff, NoDup_cons, IH.
    pose proof (has_false (map (fun x => (x, JNull)) ks) k) as Hf.
    unfold Obj.has, Obj.keys in Hf. rewrite map_map, map_id in Hf.
    rewrite Hf. tauto.
Qed.

Lemma get_None (o : object) (k : string) :
  Obj.get o k = None <-> k ∉ Obj.keys o.
Proof.
  unfold Obj.keys. induction o as [|[k' v] o IH]; simpl.
  - split; [intros _ H; inversion H | reflexivity].
  - rewrite not_elem_of_cons. destruct (String.eqb_spec k' k) as [->|Hne].
    + split; [discriminate | intros [H _]; congruence].
    + rewrite IH. split; [intros H; split; [congruence | exact H] | tauto].
Qed.

Lemma get_Some_keys (o : object) (k : string) (v : json) :
  Obj.get o k = Some v -> k ∈ Obj.keys o.
Proof.
  intros H. destruct (decide (k ∈ Obj.keys o)) as [|Hn]; [assumption|].
  apply get_None in Hn. congruence.
Qed.

Lemma get_elem_of (o : object) (k : string) (v : json) :
  NoDup (Obj.keys o) -> (k, v) ∈ o -> Obj.get o k = Some v.
Proof.
  unfold Obj.keys. induction o as [|[k' v'] o IH]; simpl; intros Hnd Hin.
  - inversion Hin.
  - apply NoDup_cons in Hnd as [Hk Hnd].
    apply elem_of_cons in Hin as [Heq|Hin].
    + inversion Heq; subst. now rewrite String.eqb_refl.
    + destruct (String.eqb_spec k' k) as [->|Hne]; [|auto].
      exfalso. apply Hk. apply list_elem_of_fmap. exists (k, v). auto.
Qed.

Lemma set_fresh (o : object) (k : string) (v : json) :
  k ∉ Obj.keys o -> Obj.set o k v = (o ++ [(k, v)])%list.
Proof.
  unfold Obj.keys. induction o as [|[k' v'] o IH]; simpl; intros Hk; [reflexivity|].
  apply not_elem_of_cons in Hk as [Hne Hk].
  destruct (String.eqb_spec k' k) as [->|_]; [congruence|].
  now rewrite IH.
Qed.

Lemma get_set_eq (o : object) (k : string) (v : json) :
  Obj.get (Obj.set o k v) k = Some v.
Proof.
  induction o as [|[k' v'] o IH]; simpl.
  - now rewrite String.eqb_refl.
  - destruct (String.eqb_spec k' k) as [->|Hne]; simpl.
    + now rewrite String.eqb_refl.
    + apply String.eqb_neq in Hne. now rewrite Hne.
Qed.

Lemma get_set_ne (o : object) (k k' : string) (v : json) :
  k <> k' -> Obj.get (Obj.set o k v) k' = Obj.get o k'.
Proof.
  intros Hne. induction o as [|[k0 v0] o IH]; simpl.
  - apply String.eqb_neq in Hne. now rewrite Hne.
  - destruct (String.eqb_spec k0 k) as [->|Hne0]; simpl.
    + apply String.eqb_neq in Hne. now rewrite Hne.
    + now rewrite IH.
Qed.

Lemma keys_set (o : object) (k : string) (v : json) :
  Obj.keys (Obj.set o k v)
  = if Obj.has o k then Obj.keys o else (Obj.keys o ++ [k])%list.
Proof.
  unfold Obj.has, Obj.keys. induction o as [|[k' v'] o IH]; simpl; [reflexivity|].
  rewrite (String.eqb_sym k k').
  destruct (String.eqb_spec k' k) as [->|Hne]; simpl; [reflexivity|].
  rewrite IH. now destruct (existsb _ _).
Qed.

Lemma NoDup_keys_set (o : object) (k : string) (v : json) :
  NoDup (Obj.keys o) -> NoDup (Obj.keys (Obj.set o k v)).
Proof.
  intros Hnd. rewrite keys_set. destruct (Obj.has o k) eqn:Hh; [assumption|].
  apply has_false in Hh. apply NoDup_app. repeat split; auto.
  - intros x Hx Hx'. apply list_elem_of_singleton in Hx'. now subst.
  - apply NoDup_singleton.
Qed.

Lemma NoDup_keys_assign (src acc : object) :
  NoDup (Obj.keys acc) -> NoDup (Obj.keys (Obj.assign acc src)).
Proof.
  unfold Obj.assign. revert acc.
  induction src as [|[k v] src IH]; simpl; intros acc Hnd; [assumption|].
  apply IH. now apply NoDup_keys_set.
Qed.

Lemma assign_fresh (src acc : object) :
  NoDup (Obj.keys (acc ++ src)%list) -> Obj.assign acc src = (acc ++ src)%list.
Proof.
  unfold Obj.assign. revert acc.
  induction src as [|[k v] src IH]; simpl; intros acc Hnd.
  - now rewrite app_nil_r.
  - replace (acc ++ (k, v) :: src)%list with ((acc ++ [(k, v)]) ++ src)%list in *
      by now rewrite <- app_assoc.
    rewrite set_fresh.
    + now apply IH.
    + unfold Obj.keys in *. rewrite !fmap_app in Hnd. simpl in Hnd.
      apply NoDup_app in Hnd as [Hnd _].
      apply NoDup_app in Hnd as [_ [Hd _]].
      intros Hin. apply (Hd k Hin). apply list_elem_of_singleton. reflexivity.
Qed.

Lemma spread_id (o : object) :
  NoDup (Obj.keys o) -> Obj.spread o = o.
Proof. intros H. unfold Obj.spread. now rewrite assign_fresh. Qed.

Lemma get_assign (src acc : object) (k : string) :
  NoDup (Obj.keys src) ->
  Obj.get (Obj.assign acc src) k
  = match Obj.get src k with Some v => Some v | None => Obj.get acc k end.
Proof.
  unfold Obj.assign. revert acc.
  induction src as [|[k0 v0] src IH]; simpl; intros acc Hnd; [reflexivity|].
  apply NoDup_cons in Hnd as [Hk Hnd].
  rewrite IH by assumption.
  destruct (String.eqb_spec k0 k) as [->|Hne].
  - apply get_None in Hk. now rewrite Hk, get_set_eq.
  - rewrite get_set_ne by assumption. reflexivity.
Qed.

Lemma get_delete_eq (o : object) (k : string) :
  Obj.get (Obj.delete o k) k = None.
Proof.
  induction o as [|[k' v'] o IH]; simpl; [reflexivity|].
  destruct (String.eqb_spec k' k) as [->|Hne]; simpl; [assumption|].
  apply String.eqb_neq in Hne. now rewrite Hne.
Qed.

Lemma get_delete_ne (o : object) (k k' : string) :
  k <> k' -> Obj.get (Obj.delete o k) k' = Obj.get o k'.
Proof.
  intros Hne. induction o as [|[k0 v0] o IH]; simpl; [reflexivity|].
  destruct (String.eqb_spec k0 k) as [->|Hne0]; simpl.
  - apply String.eqb_neq in Hne. now rewrite Hne.
  - now rewrite IH.
Qed.

Lemma delete_absent (o : object) (k : string) :
  Obj.has o k = false -> Obj.delete o k = o.
Proof.
  unfold Obj.has, Obj.keys. induction o as [|[k' v'] o IH]; simpl; [reflexivity|].
  rewrite (String.eqb_sym k k'). destruct (String.eqb k' k); simpl; [discriminate|].
  intros H. now rewrite IH.
Qed.

Lemma length_delete_le (o : object) (k : string) :
  (length (Obj.delete o k) <= length o)%nat.
Proof.
  induction o as [|[k' v'] o IH]; simpl; [lia|].
  destruct (String.eqb k' k); simpl; lia.
Qed.

Lemma length_delete_lt (o : object) (k : string) :
  Obj.has o k = true -> (length (Obj.delete o k) < length o)%nat.
Proof.
  unfold Obj.has, Obj.keys.
  induction o as [|[k' v'] o IH]; simpl; [discriminate|].
  rewrite (String.eqb_sym k k').
  destruct (String.eqb k' k); simpl; intros H.
  - pose proof (length_delete_le o k). lia.
  - apply IH in H. lia.
Qed.

Lemma elem_of_set (o : object) (k : string) (v : json) (e : string * json) :
  e ∈ Obj.set o k v -> e = (k, v) \/ e ∈ o.
Proof.
  induction o as [|[k' v'] o IH]; simpl.
  - intros H. apply list_elem_of_singleton in H. now left.
  - destruct (String.eqb k' k).
    + intros H. apply elem_of_cons in H as [H|H]; [now left|].
      right. now apply list_elem_of_further.
    + intros H. apply elem_of_cons in H as [H|H].
      * right. subst. apply list_elem_of_here.
      * apply IH in H as [H|H]; [now left|].
        right. now apply list_elem_of_further.
Qed.

Lemma elem_of_delete (o : object) (k : string) (e : string * json) :
  e ∈ Obj.delete o k -> e ∈ o.
Proof.
  induction o as [|[k' v'] o IH]; simpl; [auto|].
  destruct (String.eqb k' k).
  - intros H. now apply list_elem_of_further, IH.
  - intros H. apply elem_of_cons in H as [->|H].
    + apply list_elem_of_here.
    + now apply list_elem_of_further, IH.
Qed.

Lemma keys_delete_sub (o : object) (k k' : string) :
  k' ∈ Obj.keys (Obj.delete o k) -> k' ∈ Obj.keys o.
Proof.
  unfold Obj.keys. intros H. apply list_elem_of_fmap in H as [e [-> He]].
  apply list_elem_of_fmap. exists e. split; [reflexivity|].
  now apply elem_of_delete in He.
Qed.

Lemma NoDup_keys_delete (o : object) (k : string) :
  NoDup (Obj.keys o) -> NoDup (Obj.keys (Obj.delete o k)).
Proof.
  induction o as [|[k' v'] o IH]; simpl; [auto|].
  intros H. apply NoDup_cons in H as [Hk Hnd].
  destruct (String.eqb k' k); [now apply IH|].
  simpl. apply NoDup_cons. split; [|now apply IH].
  intros Hin. apply Hk. now apply keys_delete_sub in Hin.
Qed.

Lemma get_delete_all (args : list string) (o : object) (k : string) :
  k ∉ args -> Obj.get (delete_all o args) k = Obj.get o k.
Proof.
  unfold delete_all. revert o.
  induction args as [|k' args IH]; simpl; intros o Hk; [reflexivity|].
  apply not_elem_of_cons in Hk as [Hne Hk].
  rewrite IH by assumption. apply get_delete_ne. congruence.
Qed.

(** ** Well-formed JSON data *)

Lemma wf_object_NoDup (o : object) :
  wf_object o = true -> NoDup (Obj.keys o).
Proof.
  unfold wf_object; simpl. rewrite andb_true_iff.
  intros [H _]. now apply nodup_keys_NoDup.
Qed.

Lemma wf_object_cons k v (o : object) :
  wf_object ((k, v) :: o) = true ->
  (k ∉ Obj.keys o) /\ wf_json v = true /\ wf_object o = true.
Proof.
  unfold wf_object; simpl. intros H.
  apply andb_true_iff in H as [H1 H2].
  apply andb_true_iff in H1 as [Hk Hn].
  apply andb_true_iff in H2 as [Hv Ho].
  apply negb_true_iff in Hk. split; [|split].
  - apply has_false. exact Hk.
  - exact Hv.
  - rewrite Hn, Ho. reflexivity.
Qed.

Lemma wf_object_get (o : object) (k : string) (v : json) :
  wf_object o = true -> Obj.get o k = Some v -> wf_json v = true.
Proof.
  induction o as [|[k' v'] o IH]; simpl; [discriminate|].
  intros Hwf Hg. apply wf_object_cons in Hwf as (_ & Hv & Ho).
  destruct (String.eqb k' k); [now inversion Hg; subst | now apply IH].
Qed.

Lemma wf_object_intro (o : object) :
  NoDup (Obj.keys o) ->
  (forall k v, (k, v) ∈ o -> wf_json v = true) ->
  wf_object o = true.
Proof.
  intros Hnd Hv. unfold wf_object. simpl. apply andb_true_iff. split.
  - now apply nodup_keys_NoDup.
  - apply forallb_forall. intros [k v] Hin. simpl.
    apply (Hv k v). now apply list_elem_of_In.
Qed.

Lemma wf_object_elem (o : object) (k : string) (v : json) :
  wf_object o = true -> (k, v) ∈ o -> wf_json v = true.
Proof.
  intros Hwf Hin. apply (wf_object_get o k v Hwf).
  apply get_elem_of; [now apply wf_object_NoDup | assumption].
Qed.

Lemma wf_object_set (o : object) (k : string) (v : json) :
  wf_object o = true -> wf_json v = true -> wf_object (Obj.set o k v) = true.
Proof.
  intros Ho Hv. apply wf_object_intro.
  - apply NoDup_keys_set. now apply wf_object_NoDup.
  - intros k' v' Hin. apply elem_of_set in Hin as [Heq|Hin].
    + now inversion Heq; subst.
    + now apply (wf_object_elem o k' v').
Qed.

Lemma wf_object_assign (src acc : object) :
  wf_object acc = true -> wf_object src = true ->
  wf_object (Obj.assign acc src) = true.
Proof.
  unfold Obj.assign. revert acc.
  induction src as [|[k v] src IH]; simpl; intros acc Ha Hs; [assumption|].
  apply wf_object_cons in Hs as (_ & Hv & Hs).
  apply IH; [now apply wf_object_set | assumption].
Qed.

Lemma wf_object_delete (o : object) (k : string) :
  wf_object o = true -> wf_object (Obj.delete o k) = true.
Proof.
  intros Ho. apply wf_object_intro.
  - apply NoDup_keys_delete. now apply wf_object_NoDup.
  - intros k' v' Hin. apply elem_of_delete in Hin.
    now apply (wf_object_elem o k' v').
Qed.

Lemma wf_delete_all (args : list string) (o : object) :
  wf_object o = true -> wf_object (delete_all o args) = true.
Proof.
  unfold delete_all. revert o.
  induction args as [|k args IH]; simpl; intros o Ho; [assumption|].
  apply IH. now apply wf_object_delete.
Qed.

Create HintDb store_wf discriminated.
#[global] Hint Resolve wf_object_NoDup wf_object_set wf_object_assign
  wf_object_delete wf_delete_all : store_wf.

(** ** Structural equality *)

(** Induction over JSON data, through arrays and objects. *)
Lemma json_nested_ind (P : json -> Prop) :
  P JNull ->
  (forall b, P (JBool b)) ->
  (forall n, P (JNum n)) ->
  (forall s, P (JStr s)) ->
  (forall l, Forall P l -> P (JArr l)) ->
  (forall o, Forall (fun kv => P (snd kv)) o -> P (JObj o)) ->
  forall v, P v.
Proof.
  intros Hnull Hbool Hnum Hstr Harr Hobj.
  fix IH 1. intros [| b | n | s | l | o].
  - exact Hnull.
  - apply Hbool.
  - apply Hnum.
  - apply Hstr.
  - apply Harr. induction l as [|x l IHl]; constructor; [apply IH | exact IHl].
  - apply Hobj. induction o as [|[k x] o IHo]; constructor; [apply IH | exact IHo].
Qed.

Lemma dequal_obj_unfold (a b : object) :
  dequal (JObj a) (JObj b)
  = forallb (fun kv => match Obj.get b (fst kv) with
                       | Some w => dequal (snd kv) w
                       | None => false
                       end) a
    && (length (Obj.keys b) =? length a)%nat.
Proof. reflexivity. Qed.

Lemma dequal_refl (v : json) : wf_json v = true -> dequal v v = true.
Proof.
  induction v as [| b | n | s | l IHl | o IHo] using json_nested_ind;
    intros Hwf.
  - reflexivity.
  - apply Bool.eqb_reflx.
  - apply Z.eqb_refl.
  - apply String.eqb_refl.
  - simpl. simpl in Hwf. induction IHl as [|x l Hx _ IHl]; [reflexivity|].
    simpl in Hwf. apply andb_true_iff in Hwf as [Hwx Hwl].
    now rewrite Hx, IHl.
  - rewrite dequal_obj_unfold. unfold Obj.keys.
    rewrite length_map, Nat.eqb_refl, andb_true_r.
    apply wf_object_NoDup in Hwf as Hnd.
    apply forallb_forall. intros [k v] Hin. simpl.
    apply list_elem_of_In in Hin.
    rewrite (get_elem_of o k v Hnd Hin).
    rewrite List.Forall_forall in IHo.
    apply (IHo (k, v)); [now apply list_elem_of_In|].
    simpl in Hwf. apply andb_true_iff in Hwf as [_ Hvs].
    rewrite forallb_forall in Hvs.
    apply (Hvs (k, v)). now apply list_elem_of_In.
Qed.

Lemma dequal_obj_get (a b : object) (k : string) (v : json) :
  dequal (JObj a) (JObj b) = true ->
  Obj.get a k = Some v ->
  exists w, Obj.get b k = Some w /\ dequal v w = true.
Proof.
  rewrite dequal_obj_unfold. intros H. apply andb_true_iff in H as [H _].
  revert H. induction a as [|[k' v'] a IH]; simpl; [discriminate|].
  intros H Hg. apply andb_true_iff in H as [Hk Ha].
  destruct (String.eqb_spec k' k) as [->|Hne].
  - inversion Hg; subst. destruct (Obj.get b k) as [w|]; [|discriminate].
    now exists w.
  - now apply IH.
Qed.

Lemma dequal_obj_length (a b : object) :
  dequal (JObj a) (JObj b) = true -> length b = length a.
Proof.
  rewrite dequal_obj_unfold. intros H. apply andb_true_iff in H as [_ H].
  apply Nat.eqb_eq in H. unfold Obj.keys in H. now rewrite length_map in H.
Qed.

Lemma dequal_obj_length_ne (a b : object) :
  length b <> length a -> dequal (JObj a) (JObj b) = false.
Proof.
  intros H. destruct (dequal (JObj a) (JObj b)) eqn:E; [|reflexivity].
  now apply dequal_obj_length in E.
Qed.

Lemma dequal_num (n : Z) (w : json) : dequal (JNum n) w = true -> w = JNum n.
Proof.
  destruct w; simpl; try discriminate.
  intros H. apply Z.eqb_eq in H. now subst.
Qed.

(** ** The stable sort *)

Section SortFacts.
Context {A : Type} (cmp : A -> A -> Z).

Lemma sort_insert_Permutation (x : A) (l : list A) :
  Permutation (sort_insert cmp x l) (x :: l).
Proof.
  induction l as [|y l IH]; simpl; [reflexivity|].
  destruct (cmp x y <=? 0); [reflexivity|].
  rewrite IH. apply perm_swap.
Qed.

Lemma js_sort_Permutation (l : list A) : Permutation (js_sort cmp l) l.
Proof.
  induction l as [|x l IH]; simpl; [reflexivity|].
  rewrite sort_insert_Permutation. now constructor.
Qed.

Lemma js_sort_elem_of (l : list A) (x : A) : x ∈ js_sort cmp l <-> x ∈ l.
Proof. now rewrite js_sort_Permutation. Qed.

Lemma js_sort_length (l : list A) : length (js_sort cmp l) = length l.
Proof. apply Permutation_length, js_sort_Permutation. Qed.

(** For a comparator that is total and transitive in the sense of
    [cmp a b <= 0], the result is ordered. *)
Hypothesis cmp_total : forall a b, cmp a b <= 0 \/ cmp b a <= 0.
Hypothesis cmp_trans : forall a b c, cmp a b <= 0 -> cmp b c <= 0 -> cmp a c <= 0.

Lemma sort_insert_sorted (x : A) (l : list A) :
  StronglySorted (fun a b => cmp a b <= 0) l ->
  StronglySorted (fun a b => cmp a b <= 0) (sort_insert cmp x l).
Proof.
  induction 1 as [|y l Hs IH Hy]; simpl.
  - repeat constructor.
  - destruct (Z.leb_spec (cmp x y) 0) as [Hle|Hgt].
    + constructor; [now constructor|].
      constructor; [assumption|].
      rewrite List.Forall_forall in *. intros z Hz. eauto.
    + constructor; [assumption|].
      rewrite List.Forall_forall in *. intros z Hz.
      apply list_elem_of_In in Hz.
      rewrite sort_insert_Permutation in Hz.
      apply elem_of_cons in Hz as [->|Hz].
      * destruct (cmp_total x y); [lia | assumption].
      * apply Hy. now apply list_elem_of_In.
Qed.

Lemma js_sort_sorted (l : list A) :
  StronglySorted (fun a b => cmp a b <= 0) (js_sort cmp l).
Proof.
  induction l as [|x l IH]; simpl; [constructor|].
  now apply sort_insert_sorted.
Qed.

End SortFacts.

(** Sorting the images is sorting by the pulled-back comparator. *)
Lemma sort_insert_map {A B : Type} (f : A -> B)
    (cmpA : A -> A -> Z) (cmpB : B -> B -> Z) (x : A) (l : list A) :
  (forall y, y ∈ l -> cmpA x y = cmpB (f x) (f y)) ->
  map f (sort_insert cmpA x l) = sort_insert cmpB (f x) (map f l).
Proof.
  induction l as [|y l IH]; simpl; intros H; [reflexivity|].
  rewrite <- (H y) by apply list_elem_of_here.
  destruct (cmpA x y <=? 0); simpl; [reflexivity|].
  rewrite IH; [reflexivity|].
  intros z Hz. apply H. now apply list_elem_of_further.
Qed.

Lemma js_sort_map {A B : Type} (f : A -> B)
    (cmpA : A -> A -> Z) (cmpB : B -> B -> Z) (l : list A) :
  (forall x y, x ∈ l -> y ∈ l -> cmpA x y = cmpB (f x) (f y)) ->
  map f (js_sort cmpA l) = js_sort cmpB (map f l).
Proof.
  induction l as [|x l IH]; simpl; intros H; [reflexivity|].
  rewrite (sort_insert_map f cmpA cmpB).
  - rewrite IH; [reflexivity|].
    intros a b Ha Hb. apply H; now apply list_elem_of_further.
  - intros y Hy. apply js_sort_elem_of in Hy.
    apply H; [apply list_elem_of_here | now apply list_elem_of_further].
Qed.



(** Ties keep their order. *)
Example js_sort_is_stable :
  js_sort (fun a b => fst b - fst a) [(1, "a"); (3, "b"); (1, "c"); (3, "d")]
  = [(3, "b"); (3, "d"); (1, "a"); (1, "c")].
Proof. reflexivity. Qed.

(** ** Serialized sizes *)

Lemma string_length_append (s1 s2 : string) :
  String.length (s1 ++ s2)%string = (String.length s1 + String.length s2)%nat.
Proof. induction s1 as [|c s1 IH]; simpl; [reflexivity | now rewrite IH]. Qed.

Lemma escape_letters (n : nat) : json_escape_string (letters n) = letters n.
Proof. induction n as [|n IH]; simpl; [reflexivity | now rewrite IH]. Qed.

Lemma length_letters (n : nat) : String.length (letters n) = n.
Proof. induction n as [|n IH]; simpl; [reflexivity | now rewrite IH]. Qed.

Lemma bfo_text_value (n : Z) : 0 <= n -> bfo (text_value n) = n + 2.
Proof.
  intros Hn. unfold bfo, byteLength, text_value. simpl JSON_stringify.
  unfold json_quote. rewrite escape_letters. simpl String.length.
  rewrite string_length_append, length_letters. simpl String.length. lia.
Qed.

Lemma bfo_text_value_gt (n bound : Z) :
  0 <= n -> bound < n + 2 -> bfo (text_value n) > bound.
Proof. intros Hn Hb. rewrite bfo_text_value by assumption. lia. Qed.

Lemma bfo_singleton (k : string) (v : json) :
  bfo (JObj [(k, v)]) = byteLength (json_quote k) + bfo v + 3.
Proof.
  unfold bfo, byteLength. cbn [JSON_stringify map join_comma fst snd].
  rewrite !string_length_append. cbn [String.length]. lia.
Qed.

(** An object with the single entry [a: 1] serializes to seven bytes. *)
Example bfo_small_object : bfo (JObj [("a", JNum 1)]) = 7.
Proof. reflexivity. Qed.

(** ** The eviction helper against the wording of the specification *)

Lemma at_key_elem_of (obj : object) (k : string) (v : json) :
  NoDup (Obj.keys obj) -> (k, v) ∈ obj -> Obj.at_key obj k = v.
Proof.
  intros Hnd Hin. unfold Obj.at_key. now rewrite (get_elem_of obj k v).
Qed.

Lemma sorted_keys_entries (obj : object) :
  NoDup (Obj.keys obj) ->
  js_sort (fun a b => bfo (Obj.at_key obj b) - bfo (Obj.at_key obj a)) (Obj.keys obj)
  = Obj.keys (sort_largest_first obj).
Proof.
  intros Hnd. unfold sort_largest_first, Obj.keys. symmetry.
  apply js_sort_map. intros [k1 v1] [k2 v2] H1 H2.
  unfold entry_size; simpl.
  now rewrite (at_key_elem_of obj k1 v1), (at_key_elem_of obj k2 v2).
Qed.

Lemma reduceByts_loop_entries (obj : object) (max : Z) (entries : object) :
  NoDup (Obj.keys obj) ->
  (forall e, e ∈ entries -> e ∈ obj) ->
  forall (acc : object) (size : Z),
    NoDup (Obj.keys (acc ++ entries)%list) ->
    reduceByts_loop obj max (Obj.keys entries) acc size
    = (acc ++ greedy_accept max entries size)%list.
Proof.
  intros Hnd. induction entries as [|[k v] entries IH]; simpl; intros Hin acc size Hfresh.
  - now rewrite app_nil_r.
  - rewrite (at_key_elem_of obj k v) by (auto using list_elem_of_here).
    unfold entry_size at 1; simpl.
    rewrite Z.gtb_ltb, Z.ltb_antisym.
    destruct (size + bfo v <=? max); simpl; [|now rewrite app_nil_r].
    replace (acc ++ (k, v) :: entries)%list
      with ((acc ++ [(k, v)]) ++ entries)%list in Hfresh
      by now rewrite <- app_assoc.
    rewrite set_fresh.
    + rewrite IH; auto.
      * now rewrite <- app_assoc.
      * intros e He. apply Hin. now apply list_elem_of_further.
    + unfold Obj.keys in Hfresh. rewrite !fmap_app in Hfresh.
      apply NoDup_app in Hfresh as [Hfresh _].
      apply NoDup_app in Hfresh as [_ [Hd _]].
      intros Hk. apply (Hd k Hk). simpl. apply list_elem_of_here.
Qed.

Lemma reduceByts_refines (obj : object) (max : Z) :
  NoDup (Obj.keys obj) -> reduceByts obj max = reduce_spec obj max.
Proof.
  intros Hnd. unfold reduceByts, reduce_spec.
  rewrite sorted_keys_entries by assumption.
  rewrite reduceByts_loop_entries; auto.
  - intros e He. now apply js_sort_elem_of in He.
  - simpl. unfold Obj.keys, sort_largest_first.
    pose proof (Permutation_map fst
      (js_sort_Permutation (fun e1 e2 => entry_size e2 - entry_size e1) obj)) as Hp.
    rewrite Hp. exact Hnd.
Qed.

(** The entries are in descending order of size. *)
Lemma sort_largest_first_sorted (obj : object) :
  StronglySorted (fun e1 e2 => entry_size e2 <= entry_size e1)
                 (sort_largest_first obj).
Proof.
  unfold sort_largest_first.
  set (cmp := fun e1 e2 : string * json => entry_size e2 - entry_size e1).
  assert (Hs : StronglySorted (fun a b => cmp a b <= 0) (js_sort cmp obj)).
  { apply js_sort_sorted; unfold cmp; intros; lia. }
  induction Hs as [|e l Hs IH He]; constructor; [assumption|].
  eapply List.Forall_impl; [|exact He].
  unfold cmp. intros a Ha. simpl in Ha. lia.
Qed.





(** ** Running the methods *)

Example filePath_of_default_store :
  _filePath (new_Store None) = ".lwe8_store/$6c7765385f73746f7265.br"%string.
Proof. reflexivity. Qed.

Lemma getFormFile_run (m : Machine) :
  getFormFile m = (Returned (default [] (file_content m)), m).
Proof.
  unfold getFormFile, file_content, bind, this_, fs.existsSync_file, fs.read_decoded, ret.
  simpl. destruct (files (disk m) !! _filePath (self m)) eqn:E; simpl; now rewrite ?E.
Qed.

Lemma firstWrite_run (m : Machine) :
  firstWrite m = (Returned (match file_content m with Some _ => true | None => false end), m).
Proof.
  unfold firstWrite, file_content, bind, this_, fs.existsSync_file. simpl.
  destruct (files (disk m) !! _filePath (self m)); reflexivity.
Qed.

Lemma getNewStore_run (m : Machine) :
  getNewStore m = (Returned (merged_view m), m).
Proof.
  unfold merged_view, result_of, getNewStore, bind, this_, ret.
  rewrite getFormFile_run. reflexivity.
Qed.

Lemma merged_view_eq (m : Machine) :
  merged_view m
  = Obj.assign (Obj.spread (Obj.spread (default [] (file_content m))))
               (Obj.spread (_store (self m))).
Proof.
  unfold merged_view, result_of, getNewStore, bind, this_, ret.
  rewrite getFormFile_run. simpl.
  destruct (default [] (file_content m)) as [|e f], (_store (self m)) as [|e' b];
    reflexivity.
Qed.

Lemma merged_view_wf (m : Machine) :
  wf_machine m ->
  merged_view m = Obj.assign (default [] (file_content m)) (_store (self m)).
Proof.
  intros (Hb & _ & Hf). rewrite merged_view_eq.
  assert (Hnf : NoDup (Obj.keys (default [] (file_content m)))).
  { destruct (file_content m) as [f|]; simpl; [|constructor].
    apply wf_object_NoDup. now apply Hf. }
  rewrite !(spread_id (default [] (file_content m))) by assumption.
  rewrite spread_id by now apply wf_object_NoDup.
  reflexivity.
Qed.

Lemma NoDup_merged_view (m : Machine) : NoDup (Obj.keys (merged_view m)).
Proof.
  rewrite merged_view_eq. apply NoDup_keys_assign.
  unfold Obj.spread. apply NoDup_keys_assign. constructor.
Qed.

Lemma get_merged_view (m : Machine) (k : string) :
  wf_machine m ->
  Obj.get (merged_view m) k
  = match Obj.get (_store (self m)) k with
    | Some v => Some v
    | None => Obj.get (default [] (file_content m)) k
    end.
Proof.
  intros Hwf. rewrite merged_view_wf by assumption.
  destruct Hwf as (Hb & _ & _).
  apply get_assign. now apply wf_object_NoDup.
Qed.

Lemma merged_view_flushed (s : Store) (d : Disk) (t : list effect) (ns : object) :
  NoDup (Obj.keys ns) ->
  _store s = [] ->
  files d !! _filePath s = Some ns ->
  merged_view (mkMachine s d t) = ns.
Proof.
  intros Hnd Hb Hf. rewrite merged_view_eq. unfold file_content. simpl.
  rewrite Hf, Hb. change (default [] (Some ns)) with ns.
  rewrite !(spread_id ns) by assumption. reflexivity.
Qed.

Lemma wf_merged_view (m : Machine) :
  wf_machine m -> wf_object (merged_view m) = true.
Proof.
  intros Hwf. rewrite merged_view_wf by assumption.
  destruct Hwf as (Hb & _ & Hf).
  apply wf_object_assign; [|assumption].
  destruct (file_content m) as [f|]; [now apply Hf | reflexivity].
Qed.

Lemma set_run (args : set_args) (m : Machine) :
  set args m
  = (Returned tt,
     mkMachine (with_buffer (self m) (set_buffer args (merged_view m)))
               (disk m) (trace m)).
Proof.
  unfold set, bind. rewrite getNewStore_run. now destruct args.
Qed.

Lemma get_run (key : string) (m : Machine) :
  get key m = (Returned (nullish_undefined (Obj.get (merged_view m) key)), m).
Proof. unfold get, bind. now rewrite getNewStore_run. Qed.

(** The helper [reducebyts], run with the store as receiver, only reads. *)
Lemma reducebyts_pure (m : Machine) :
  reducebyts ThisStore m
  = (Returned (reduceByts (merged_view m) (_max (self m))), m).
Proof.
  unfold reducebyts, call_getNewStore, bind. now rewrite getNewStore_run.
Qed.

Lemma emit_bytesLimitOver_run (m : Machine) :
  events (self m) = events (new_Store None) ->
  emit "bytesLimitOver" [] m
  = (Threw (TypeError "this.getNewStore is not a function"),
     mkMachine (self m) (disk m) (Emit "bytesLimitOver" [] :: trace m)).
Proof.
  intros He. unfold emit, bind, perform, this_. simpl. rewrite He. reflexivity.
Qed.

Lemma emitEvent_run (m : Machine) :
  events (self m) = events (new_Store None) ->
  emitEvent m
  = if bfo (JObj (merged_view m)) >? _max (self m)
    then (Threw (TypeError "this.getNewStore is not a function"),
          mkMachine (self m) (disk m) (Emit "bytesLimitOver" [] :: trace m))
    else (Returned tt, m).
Proof.
  intros He. unfold emitEvent, bind. rewrite getNewStore_run. unfold this_.
  destruct (bfo (JObj (merged_view m)) >? _max (self m)).
  - now apply emit_bytesLimitOver_run.
  - reflexivity.
Qed.

Lemma with_buffer_id (s : Store) : with_buffer s (_store s) = s.
Proof. now destruct s. Qed.

Lemma remove_step_run (key : string) (_fs : object) (m : Machine) :
  events (self m) = events (new_Store None) ->
  exists new,
    remove_step key _fs m
    = (Returned (Obj.delete _fs key),
       mkMachine (with_buffer (self m) (Obj.delete (_store (self m)) key))
                 (disk m) (new ++ trace m))
    /\ forallb is_removal_notice new = true.
Proof.
  destruct m as [[name st dir path pr ev mx] d tr]. cbn [self events].
  intros ->. unfold remove_step, bind, this_. cbn [self _store].
  destruct (Obj.has st key) eqn:Hb; destruct (Obj.has _fs key) eqn:Hf;
    rewrite ?(delete_absent _ _ Hb), ?(delete_absent _ _ Hf).
  - eexists [_; _; _]. split; reflexivity.
  - eexists [_; _]. split; reflexivity.
  - eexists [_]. split; reflexivity.
  - exists []. split; reflexivity.
Qed.

Lemma remove_loop_run (args : list string) :
  forall (_fs : object) (m : Machine),
    events (self m) = events (new_Store None) ->
    exists new,
      remove_loop args _fs m
      = (Returned (delete_all _fs args),
         mkMachine (with_buffer (self m) (delete_all (_store (self m)) args))
                   (disk m) (new ++ trace m))
      /\ forallb is_removal_notice new = true.
Proof.
  induction args as [|key rest IH]; intros _fs m He.
  - exists []. split; [|reflexivity]. simpl. unfold ret.
    rewrite with_buffer_id. now destruct m.
  - destruct (remove_step_run key _fs m He) as (new1 & Hstep & Hn1).
    simpl. unfold bind. rewrite Hstep.
    edestruct (IH (Obj.delete _fs key)) as (new2 & Hloop & Hn2);
      [|rewrite Hloop]; [exact He|].
    exists (new2 ++ new1). split.
    + simpl. now rewrite app_assoc.
    + rewrite forallb_app, Hn1, Hn2. reflexivity.
Qed.

Lemma remove_run (args : list string) (m : Machine) :
  events (self m) = events (new_Store None) ->
  exists new,
    forallb is_removal_notice new = true /\
    let _fs := delete_all (default [] (file_content m)) args in
    let m1 := mkMachine (with_buffer (self m) (delete_all (_store (self m)) args))
                        (disk m) (new ++ trace m) in
    remove args m
    = if dequal (JObj _fs) (JObj (__proto__ (self m)))
      then (Returned tt, m1)
      else (Returned tt, flushed m1 _fs).
Proof.
  intros He.
  destruct (remove_loop_run args (default [] (file_content m)) m He)
    as (new & Hloop & Hn).
  exists new. split; [assumption|]. intros _fs m1.
  unfold remove, bind. rewrite getFormFile_run, Hloop. unfold this_.
  cbn [self __proto__ with_buffer].
  destruct (dequal (JObj _) (JObj (__proto__ (self m)))); reflexivity.
Qed.

(** ** The state after a flush *)

Lemma flushed_self (m : Machine) (obj : object) :
  self (flushed m obj)
  = mkStore (_name (self m)) [] (_storeDir (self m)) (_filePath (self m))
            obj (events (self m)) (_max (self m)).
Proof. reflexivity. Qed.

Lemma flushed_disk (m : Machine) (obj : object) :
  disk (flushed m obj)
  = mkDisk (dirs (disk m)) (<[_filePath (self m) := obj]> (files (disk m))).
Proof. reflexivity. Qed.

Lemma flushed_trace (m : Machine) (obj : object) :
  trace (flushed m obj) = WriteFile (_filePath (self m)) obj :: trace m.
Proof. reflexivity. Qed.

Lemma flushed_file_content (m : Machine) (obj : object) :
  file_content (flushed m obj) = Some obj.
Proof. unfold file_content. rewrite flushed_self, flushed_disk. apply lookup_insert_eq. Qed.

(** After a flush the merged view is the object written. *)
Lemma flushed_merged_view (m : Machine) (obj : object) :
  NoDup (Obj.keys obj) ->
  merged_view (flushed m obj) = obj.
Proof.
  intros Hnd. unfold flushed. apply merged_view_flushed; auto.
  simpl. apply lookup_insert_eq.
Qed.

(** ** Frames: what notifications and the budget check leave alone *)

Lemma forallb_weaken {A : Type} (f g : A -> bool) (l : list A) :
  (forall x, f x = true -> g x = true) ->
  forallb f l = true -> forallb g l = true.
Proof.
  intros Hfg. induction l as [|x l IH]; simpl; [reflexivity|].
  intros H. apply andb_true_iff in H as [Hx Hl].
  now rewrite (Hfg x Hx), IH.
Qed.

Lemma filter_none {A : Type} (p : A -> bool) (l : list A) :
  forallb (fun x => negb (p x)) l = true -> List.filter p l = [].
Proof.
  induction l as [|x l IH]; simpl; [reflexivity|].
  intros H. apply andb_true_iff in H as [Hx Hl].
  apply negb_true_iff in Hx. rewrite Hx. now apply IH.
Qed.

(** A listener that only logs, followed by the remaining listeners. *)
Ltac log_listener_then_rest IH m :=
  unfold after, bind, call_listener, console_log, perform;
  match goal with
  | |- context [ConsoleLog ?msg :: _] =>
      let new := fresh "new" in
      let Hrest := fresh "Hrest" in
      let Hn := fresh "Hn" in
      destruct (IH (mkMachine (self m) (disk m) (ConsoleLog msg :: trace m)))
        as (new & Hrest & Hn);
      exists (new ++ [ConsoleLog msg]);
      unfold after in Hrest; rewrite Hrest; cbn [self disk trace];
      split; [now rewrite <- app_assoc | now rewrite forallb_app, Hn]
  end.

Lemma call_listeners_frame (registered : list (string * listener))
    (event : string) (args : list string) (m : Machine) :
  exists new,
    after (call_listeners registered event args) m
    = mkMachine (self m) (disk m) (new ++ trace m)
    /\ forallb (fun e => match e with ConsoleLog _ => true | _ => false end) new = true.
Proof.
  revert m. induction registered as [|[name l] rest IH]; intros m; simpl.
  - exists []. split; [now destruct m | reflexivity].
  - destruct (String.eqb name event); [|apply IH].
    destruct l.
    + exists []. split; [now destruct m | reflexivity].
    + log_listener_then_rest IH m.
    + log_listener_then_rest IH m.
Qed.

Lemma emitEvent_frame (m : Machine) :
  exists new,
    after emitEvent m = mkMachine (self m) (disk m) (new ++ trace m)
    /\ forallb (fun e => negb (is_WriteFile e)) new = true.
Proof.
  unfold after, emitEvent, bind. rewrite getNewStore_run. unfold this_.
  destruct (bfo (JObj (merged_view m)) >? _max (self m)).
  - unfold emit, bind, perform, this_. cbn [self disk trace].
    destruct (call_listeners_frame (events (self m)) "bytesLimitOver" []
                (mkMachine (self m) (disk m) (Emit "bytesLimitOver" [] :: trace m)))
      as (new & Hl & Hn).
    unfold after in Hl.
    destruct (call_listeners _ _ _ _) as [[u|e] m']; simpl in Hl; subst m'; simpl;
      exists (new ++ [Emit "bytesLimitOver" []]);
      (split; [now rewrite <- app_assoc|]);
      rewrite forallb_app; apply andb_true_iff; (split; [|reflexivity]);
      (eapply forallb_weaken; [|exact Hn]); now intros [].
  - exists []. split; [now destruct m | reflexivity].
Qed.

Lemma checkDir_frame (m : Machine) :
  self (after checkDir m) = self m
  /\ files (disk (after checkDir m)) = files (disk m)
  /\ exists new, trace (after checkDir m) = new ++ trace m
                 /\ disk_writes new = 0%nat
                 /\ emissions "bytesLimitOver" new = 0%nat.
Proof.
  unfold after, checkDir, bind, this_, fs.existsSync_dir. simpl.
  destruct (bool_decide _); simpl.
  - repeat split. now exists [].
  - repeat split. now exists [Mkdir (_storeDir (self m))].
Qed.

Lemma disk_writes_app (t1 t2 : list effect) :
  disk_writes (t1 ++ t2) = (disk_writes t1 + disk_writes t2)%nat.
Proof. unfold disk_writes. now rewrite List.filter_app, length_app. Qed.

Lemma emissions_app (event : string) (t1 t2 : list effect) :
  emissions event (t1 ++ t2) = (emissions event t1 + emissions event t2)%nat.
Proof. unfold emissions. now rewrite List.filter_app, length_app. Qed.

Lemma disk_writes_none (t : list effect) :
  forallb (fun e => negb (is_WriteFile e)) t = true -> disk_writes t = 0%nat.
Proof. intros H. unfold disk_writes. now rewrite filter_none. Qed.

Lemma disk_writes_zero_elem (t : list effect) (p : string) (c : object) :
  disk_writes t = 0%nat -> WriteFile p c ∉ t.
Proof.
  unfold disk_writes. induction t as [|e t IH]; intros Hz Hin.
  - inversion Hin.
  - apply elem_of_cons in Hin as [<-|Hin]; [discriminate|].
    simpl in Hz. destruct (is_WriteFile e); [discriminate | now apply IH].
Qed.

Lemma removal_notices_no_write (t : list effect) :
  forallb is_removal_notice t = true -> disk_writes t = 0%nat.
Proof.
  intros H. apply disk_writes_none.
  eapply forallb_weaken; [|exact H]. now intros [].
Qed.

Lemma removal_notices_no_limit (t : list effect) :
  forallb is_removal_notice t = true -> emissions "bytesLimitOver" t = 0%nat.
Proof.
  intros H. unfold emissions. rewrite filter_none; [reflexivity|].
  eapply forallb_weaken; [|exact H].
  intros [| |ev args|]; simpl; try reflexivity.
  destruct (String.eqb_spec ev "bytesLimitOver") as [->|]; [discriminate|reflexivity].
Qed.

(** ** The cases of [write] *)

Lemma write_noop_run (m : Machine) (f : object) :
  file_content m = Some f ->
  dequal (JObj (merged_view m)) (JObj (__proto__ (self m))) = true ->
  write m = (Returned tt, m).
Proof.
  intros Hf Hd. unfold write, bind. rewrite firstWrite_run, Hf. cbn [negb].
  rewrite getNewStore_run, firstWrite_run, Hf. unfold this_. rewrite Hd. reflexivity.
Qed.

Lemma write_rewrite_run (m : Machine) (f : object) :
  file_content m = Some f ->
  dequal (JObj (merged_view m)) (JObj (__proto__ (self m))) = false ->
  write m = emitEvent (flushed m (merged_view m)).
Proof.
  intros Hf Hd. unfold write, bind. rewrite firstWrite_run, Hf. cbn [negb].
  rewrite getNewStore_run, firstWrite_run, Hf. unfold this_. rewrite Hd. reflexivity.
Qed.

Lemma write_first_run (m : Machine) :
  file_content m = None ->
  write m = emitEvent (flushed (after checkDir m) (merged_view m)).
Proof.
  intros Hf. unfold write, bind. rewrite firstWrite_run, Hf. cbn [negb].
  rewrite getNewStore_run. unfold flushed, after, checkDir, bind, this_, fs.existsSync_dir.
  simpl. destruct (bool_decide _); reflexivity.
Qed.

Lemma write_dichotomy (m : Machine) :
  persisting m
  \/ exists f, file_content m = Some f
       /\ dequal (JObj (merged_view m)) (JObj (__proto__ (self m))) = true.
Proof.
  unfold persisting. destruct (file_content m) as [f|]; [|now left; left].
  destruct (dequal (JObj (merged_view m)) (JObj (__proto__ (self m)))) eqn:Hd.
  - right. now exists f.
  - left. now right.
Qed.

Lemma not_persisting (m : Machine) (f : object) :
  file_content m = Some f ->
  dequal (JObj (merged_view m)) (JObj (__proto__ (self m))) = true ->
  ~ persisting m.
Proof. intros Hf Hd [Hn | Hn]; congruence. Qed.

Lemma write_persist (m : Machine) :
  persisting m ->
  exists m0 pre,
    self m0 = self m
    /\ files (disk m0) = files (disk m)
    /\ trace m0 = pre ++ trace m
    /\ disk_writes pre = 0%nat
    /\ emissions "bytesLimitOver" pre = 0%nat
    /\ write m = emitEvent (flushed m0 (merged_view m)).
Proof.
  intros Hp. destruct (file_content m) as [f|] eqn:Hf.
  - destruct Hp as [Hp|Hp]; [unfold file_content in *; congruence|].
    exists m, []. repeat split. now apply (write_rewrite_run m f).
  - destruct (checkDir_frame m) as (Hs & Hd & pre & Ht & Hw & He).
    exists (after checkDir m), pre. repeat split; auto.
    now apply write_first_run.
Qed.

Lemma write_persist_after (m : Machine) :
  persisting m ->
  self (after write m) = self (flushed m (merged_view m))
  /\ files (disk (after write m))
     = <[_filePath (self m) := merged_view m]> (files (disk m))
  /\ disk_writes (trace (after write m)) = S (disk_writes (trace m)).
Proof.
  intros Hp.
  destruct (write_persist m Hp) as (m0 & pre & Hs & Hd & Ht & Hw & _ & Hrun).
  destruct (emitEvent_frame (flushed m0 (merged_view m))) as (new & Hm' & Hn).
  unfold after in *. rewrite Hrun, Hm'. cbn [self disk trace].
  rewrite !flushed_self, flushed_disk, flushed_trace, Hs, Hd, Ht.
  repeat split.
  rewrite disk_writes_app, (disk_writes_none new Hn).
  change (WriteFile (_filePath (self m)) (merged_view m) :: pre ++ trace m)
    with ([WriteFile (_filePath (self m)) (merged_view m)] ++ pre ++ trace m).
  rewrite !disk_writes_app, Hw. reflexivity.
Qed.

Lemma write_persist_form (m : Machine) :
  persisting m ->
  exists d t,
    after write m = mkMachine (self (flushed m (merged_view m))) d t
    /\ files d = <[_filePath (self m) := merged_view m]> (files (disk m)).
Proof.
  intros Hp.
  destruct (write_persist m Hp) as (m0 & pre & Hs & Hd & Ht & _ & _ & Hrun).
  destruct (emitEvent_frame (flushed m0 (merged_view m))) as (new & Hm' & _).
  unfold after in *. rewrite Hrun, Hm'.
  eexists _, _. split.
  - rewrite !flushed_self, Hs. reflexivity.
  - rewrite flushed_disk, Hs, Hd. reflexivity.
Qed.

Lemma write_persist_trace (m : Machine) :
  persisting m ->
  exists new pre,
    trace (after write m)
    = new ++ WriteFile (_filePath (self m)) (merged_view m) :: pre ++ trace m
    /\ disk_writes new = 0%nat
    /\ disk_writes pre = 0%nat.
Proof.
  intros Hp.
  destruct (write_persist m Hp) as (m0 & pre & Hs & _ & Ht & Hw & _ & Hrun).
  destruct (emitEvent_frame (flushed m0 (merged_view m))) as (new & Hm' & Hn).
  exists new, pre. unfold after in *. rewrite Hrun, Hm'. cbn [trace].
  rewrite flushed_trace, Hs, Ht. split; [reflexivity|].
  split; [now apply disk_writes_none | exact Hw].
Qed.

Lemma write_persist_view (m : Machine) :
  persisting m ->
  let m' := after write m in
  __proto__ (self m') = merged_view m
  /\ _store (self m') = []
  /\ file_content m' = Some (merged_view m)
  /\ merged_view m' = merged_view m.
Proof.
  intros Hp m'. destruct (write_persist_form m Hp) as (d & t & Hm' & Hd).
  subst m'. rewrite Hm'. unfold file_content. cbn [self disk].
  rewrite flushed_self. cbn [__proto__ _store _filePath].
  assert (Hf : files d !! _filePath (self m) = Some (merged_view m))
    by (rewrite Hd; apply lookup_insert_eq).
  repeat split; auto.
  apply merged_view_flushed; auto using NoDup_merged_view.
Qed.

Lemma write_persist_outcome (m : Machine) :
  events (self m) = events (new_Store None) ->
  persisting m ->
  result_of write m
  = (if bfo (JObj (merged_view m)) >? _max (self m)
     then Threw (TypeError "this.getNewStore is not a function")
     else Returned tt)
  /\ emissions "bytesLimitOver" (trace (after write m))
     = ((if bfo (JObj (merged_view m)) >? _max (self m) then 1 else 0)
        + emissions "bytesLimitOver" (trace m))%nat.
Proof.
  intros He Hp.
  destruct (write_persist m Hp) as (m0 & pre & Hs & Hd & Ht & _ & Hl & Hrun).
  unfold result_of, after. rewrite Hrun, emitEvent_run.
  - rewrite (flushed_merged_view m0 _ (NoDup_merged_view m)).
    rewrite flushed_self, Hs. cbn [_max].
    destruct (bfo (JObj (merged_view m)) >? _max (self m)); cbn [fst snd trace].
    + split; [reflexivity|]. rewrite flushed_trace, Ht.
      change (Emit "bytesLimitOver" [] :: WriteFile (_filePath (self m0)) (merged_view m)
                :: pre ++ trace m)
        with ([Emit "bytesLimitOver" []; WriteFile (_filePath (self m0)) (merged_view m)]
                ++ pre ++ trace m).
      rewrite !emissions_app, Hl. reflexivity.
    + split; [reflexivity|]. rewrite flushed_trace, Ht.
      change (WriteFile (_filePath (self m0)) (merged_view m) :: pre ++ trace m)
        with ([WriteFile (_filePath (self m0)) (merged_view m)] ++ pre ++ trace m).
      rewrite !emissions_app, Hl. reflexivity.
  - rewrite flushed_self, Hs. exact He.
Qed.

Lemma writes_by_persist (m : Machine) : persisting m -> writes_by write m = 1%nat.
Proof.
  intros Hp. unfold writes_by.
  destruct (write_persist_after m Hp) as (_ & _ & Hw). rewrite Hw. lia.
Qed.

Lemma writes_by_noop (m : Machine) (f : object) :
  file_content m = Some f ->
  dequal (JObj (merged_view m)) (JObj (__proto__ (self m))) = true ->
  writes_by write m = 0%nat.
Proof.
  intros Hf Hd. unfold writes_by, after. rewrite (write_noop_run m f Hf Hd).
  cbn [snd]. lia.
Qed.

(** A second [write] directly after a [write] finds the merged view equal
    to the snapshot. *)
Lemma write_twice (m : Machine) :
  wf_machine m ->
  let m' := after write m in
  write m' = (Returned tt, m').
Proof.
  intros Hwf m'. destruct (write_dichotomy m) as [Hp | (f & Hf & Hd)].
  - destruct (write_persist_view m Hp) as (Hpr & _ & Hf' & Hv).
    fold m' in Hpr, Hf', Hv.
    apply (write_noop_run m' (merged_view m) Hf').
    rewrite Hv, Hpr. apply dequal_refl. now apply wf_merged_view.
  - subst m'. unfold after. rewrite (write_noop_run m f Hf Hd). cbn [snd].
    now apply (write_noop_run m f).
Qed.

(** ** The invariant is kept *)

Lemma wf_set_buffer (args : set_args) (_ns : object) :
  wf_object _ns = true -> wf_set_args args = true ->
  wf_object (set_buffer args _ns) = true.
Proof.
  intros Hns Ha. destruct args as [obj|key value]; simpl in *;
    rewrite spread_id by auto with store_wf; auto with store_wf.
Qed.

Lemma invariant_boot (name : option string) (d : Disk) :
  wf_disk d -> invariant (boot name d).
Proof.
  intros Hd. repeat split; try reflexivity.
  - intros o Ho. exact (Hd _ o Ho).
  - now left.
Qed.

Lemma invariant_set (args : set_args) (m : Machine) :
  wf_set_args args = true -> invariant m -> invariant (after (set args) m).
Proof.
  intros Ha (Hc & Hwf & Hs). unfold after. rewrite set_run. cbn [snd].
  split; [exact Hc|]. split.
  - destruct Hwf as (Hb & Hp & Hf). repeat split; auto.
    cbn [self with_buffer _store].
    apply wf_set_buffer; [|assumption]. now apply wf_merged_view.
  - exact Hs.
Qed.

Lemma invariant_get (key : string) (m : Machine) :
  invariant m -> invariant (after (get key) m).
Proof. unfold after. now rewrite get_run. Qed.

Lemma invariant_flushed (m : Machine) (obj : object) :
  constructed (self m) -> wf_object obj = true -> invariant (flushed m obj).
Proof.
  intros Hc Hobj. split; [exact Hc|]. split.
  - repeat split; auto. intros o Ho.
    rewrite flushed_file_content in Ho. now inversion Ho; subst.
  - right. now rewrite flushed_file_content.
Qed.

Lemma invariant_write (m : Machine) :
  invariant m -> invariant (after write m).
Proof.
  intros Hinv. destruct (write_dichotomy m) as [Hp | (f & Hf & Hd)].
  - destruct (write_persist_form m Hp) as (d & t & Hm' & Hfiles).
    rewrite Hm'. destruct Hinv as (Hc & Hwf & _).
    assert (Hcontent : files d !! _filePath (self m) = Some (merged_view m))
      by (rewrite Hfiles; apply lookup_insert_eq).
    split; [exact Hc|]. split.
    + repeat split; [now apply wf_merged_view|].
      intros o Ho. unfold file_content in Ho. cbn [self disk] in Ho.
      rewrite flushed_self in Ho. cbn [_filePath] in Ho.
      rewrite Hcontent in Ho. inversion Ho; subst. now apply wf_merged_view.
    + right. unfold file_content. cbn [self disk].
      rewrite flushed_self. cbn [_filePath __proto__]. exact Hcontent.
  - unfold after. now rewrite (write_noop_run m f).
Qed.

Lemma invariant_remove (args : list string) (m : Machine) :
  invariant m -> invariant (after (remove args) m).
Proof.
  intros (Hc & Hwf & Hs).
  destruct (remove_run args m) as (new & Hn & Hrun); [apply Hc|].
  unfold after. cbv zeta in Hrun. rewrite Hrun.
  assert (Hwf_fs : wf_object (delete_all (default [] (file_content m)) args) = true).
  { apply wf_delete_all. destruct Hwf as (_ & _ & Hf).
    destruct (file_content m) as [f|]; [now apply Hf | reflexivity]. }
  destruct (dequal _ _) eqn:Hd; cbn [snd].
  - split; [exact Hc|]. destruct Hwf as (Hb & Hp & Hf). split.
    + repeat split; auto. cbn [self with_buffer _store]. now apply wf_delete_all.
    + exact Hs.
  - apply invariant_flushed; [exact Hc | exact Hwf_fs].
Qed.

(** Every state an instance reaches through its public calls satisfies the
    invariant. *)
Lemma reachable_invariant (name : option string) (d : Disk) (m : Machine) :
  wf_disk d -> reachable name d m -> invariant m.
Proof.
  intros Hd Hr. induction Hr as [|m c Hr IH Hc].
  - now apply invariant_boot.
  - destruct c as [args|key|keys|]; cbn [run_call].
    + now apply invariant_set.
    + now apply invariant_get.
    + now apply invariant_remove.
    + now apply invariant_write.
Qed.

Lemma invariant_fresh_store : invariant fresh_store.
Proof.
  apply invariant_boot. intros p o Ho.
  unfold empty_disk in Ho. cbn [files] in Ho.
  rewrite lookup_empty in Ho. discriminate.
Qed.

Lemma invariant_store_with_big (v : json) :
  wf_json v = true -> invariant (store_with_big v).
Proof.
  intros Hv. apply invariant_set; [exact Hv | apply invariant_fresh_store].
Qed.

(** ** Across instances and over the budget *)

Lemma boot_reads_file (m : Machine) (f : object) :
  constructed (self m) ->
  file_content m = Some f ->
  NoDup (Obj.keys f) ->
  merged_view (boot (Some (_name (self m))) (disk m)) = f.
Proof.
  intros (Hpath & Hdir & _) Hf Hnd. apply merged_view_flushed; auto.
  unfold file_content in Hf. rewrite Hpath, Hdir in Hf. exact Hf.
Qed.

Lemma set_a_buffer (m : Machine) :
  Obj.get (_store (self (after (set (Set_obj [("a", JNum 1)])) m))) "a"
  = Some (JNum 1).
Proof.
  unfold after. rewrite set_run. cbn [snd self with_buffer _store set_buffer].
  unfold Obj.assign. cbn [fold_left fst snd]. apply get_set_eq.
Qed.

(** After [set({a: 1}); write()] the file and the snapshot agree and map
    [a] to [1]. *)
Lemma set_a_write (m : Machine) :
  invariant m ->
  let m2 := after write (after (set (Set_obj [("a", JNum 1)])) m) in
  invariant m2
  /\ _name (self m2) = _name (self m)
  /\ exists f, file_content m2 = Some f
               /\ __proto__ (self m2) = f
               /\ Obj.get f "a" = Some (JNum 1).
Proof.
  intros Hinv. set (m1 := after (set (Set_obj [("a", JNum 1)])) m). intros m2.
  assert (Hinv1 : invariant m1) by now apply invariant_set.
  assert (Hinv2 : invariant m2) by now apply invariant_write.
  assert (Hname1 : _name (self m1) = _name (self m))
    by (unfold m1, after; now rewrite set_run).
  assert (Ha : Obj.get (merged_view m1) "a" = Some (JNum 1)).
  { rewrite get_merged_view by apply Hinv1. unfold m1. now rewrite set_a_buffer. }
  split; [exact Hinv2|].
  destruct (write_dichotomy m1) as [Hp | (f & Hf & Hd)].
  - destruct (write_persist_view m1 Hp) as (Hpr & _ & Hf & _).
    destruct (write_persist_after m1 Hp) as (Hs & _ & _).
    fold m2 in Hpr, Hf, Hs. split.
    + rewrite Hs, flushed_self. exact Hname1.
    + exists (merged_view m1). auto.
  - assert (Hm2 : m2 = m1)
      by (unfold m2, after; now rewrite (write_noop_run m1 f Hf Hd)).
    rewrite Hm2. split; [exact Hname1|].
    destruct (dequal_obj_get _ _ _ _ Hd Ha) as (w & Hw & Hdw).
    apply dequal_num in Hdw. subst w.
    destruct Hinv1 as (_ & _ & [Hempty | Hsync]).
    + rewrite Hempty in Hw. discriminate.
    + exists f. split; [exact Hf|]. split; [congruence|].
      rewrite Hsync in Hf. inversion Hf; subst. exact Hw.
Qed.

Lemma write_over_budget_throws (v : json) :
  bfo v > 249992 ->
  bfo (JObj (merged_view (store_with_big v))) > _max (self (store_with_big v))
  /\ result_of write (store_with_big v)
     = Threw (TypeError "this.getNewStore is not a function")
  /\ file_content (after write (store_with_big v)) = Some [("big", v)]
  /\ __proto__ (self (after write (store_with_big v))) = [("big", v)]
  /\ _store (self (after write (store_with_big v))) = [].
Proof.
  intros Hbig.
  assert (Hv : merged_view (store_with_big v) = [("big", v)])
    by (vm_compute; reflexivity).
  assert (Hp : persisting (store_with_big v)) by (left; vm_compute; reflexivity).
  assert (Hmax : _max (self (store_with_big v)) = 250000) by reflexivity.
  assert (Hover : bfo (JObj (merged_view (store_with_big v))) > 250000).
  { rewrite Hv, bfo_singleton.
    change (byteLength (json_quote "big")) with 5. lia. }
  rewrite Hmax. split; [exact Hover|].
  destruct (write_persist_outcome (store_with_big v)) as (Hres & _);
    [reflexivity | exact Hp |].
  destruct (write_persist_view (store_with_big v) Hp) as (Hpr & Hb & Hf & _).
  rewrite Hres, Hf, Hpr, Hb, Hv, Hmax.
  rewrite Hv in Hover. apply Z.gt_lt, Z.gtb_lt in Hover. rewrite Hover. auto.
Qed.

Lemma emitted_by_remove (args : list string) (m : Machine) :
  events (self m) = events (new_Store None) ->
  emitted_by "bytesLimitOver" (remove args) m = 0%nat.
Proof.
  intros He. destruct (remove_run args m He) as (new & Hn & Hrun).
  cbv zeta in Hrun. unfold emitted_by, after. rewrite Hrun.
  destruct (dequal _ _); cbn [snd].
  - cbn [trace]. rewrite emissions_app, (removal_notices_no_limit new Hn). lia.
  - rewrite flushed_trace. cbn [trace self].
    change (WriteFile ?p ?o :: new ++ trace m)
      with ([WriteFile p o] ++ new ++ trace m).
    rewrite !emissions_app, (removal_notices_no_limit new Hn).
    cbn [emissions List.filter is_Emit length]. lia.
Qed.

Lemma remove_on_big_file (v : json) :
  bfo v > 249992 ->
  writes_by (remove ["a"]) (store_on_big_file v) = 1%nat
  /\ file_content (after (remove ["a"]) (store_on_big_file v)) = Some [("big", v)]
  /\ bfo (JObj (merged_view (after (remove ["a"]) (store_on_big_file v))))
     > _max (self (after (remove ["a"]) (store_on_big_file v)))
  /\ emitted_by "bytesLimitOver" (remove ["a"]) (store_on_big_file v) = 0%nat
  /\ result_of (remove ["a"]) (store_on_big_file v) = Returned tt.
Proof.
  intros Hbig.
  assert (Hv : merged_view (after (remove ["a"]) (store_on_big_file v)) = [("big", v)])
    by (vm_compute; reflexivity).
  split; [vm_compute; reflexivity|].
  split; [vm_compute; reflexivity|].
  split.
  - rewrite Hv, bfo_singleton.
    change (byteLength (json_quote "big")) with 5.
    change (_max (self (after (remove ["a"]) (store_on_big_file v)))) with 250000.
    lia.
  - split; [vm_compute; reflexivity | vm_compute; reflexivity].
Qed.

(** Where [remove] does not rewrite the file, the buffer keeps every
    entry whose key is not listed. *)
Lemma remove_keeps_buffer_without_rewrite (args : list string) (m : Machine) (k : string) :
  events (self m) = events (new_Store None) ->
  dequal (JObj (delete_all (default [] (file_content m)) args))
         (JObj (__proto__ (self m))) = true ->
  k ∉ args ->
  Obj.get (_store (self (after (remove args) m))) k = Obj.get (_store (self m)) k.
Proof.
  intros He Hd Hk. destruct (remove_run args m He) as (new & _ & Hrun).
  cbv zeta in Hrun. unfold after. rewrite Hrun, Hd. cbn [snd self with_buffer _store].
  now apply get_delete_all.
Qed.

(** Where [remove] rewrites the file, it leaves the buffer empty. *)
Lemma remove_rewrite_empties_buffer (args : list string) (m : Machine) :
  events (self m) = events (new_Store None) ->
  dequal (JObj (delete_all (default [] (file_content m)) args))
         (JObj (__proto__ (self m))) = false ->
  _store (self (after (remove args) m)) = []
  /\ writes_by (remove args) m = 1%nat.
Proof.
  intros He Hd. destruct (remove_run args m He) as (new & Hn & Hrun).
  cbv zeta in Hrun. unfold writes_by, after. rewrite Hrun, Hd. cbn [snd].
  rewrite flushed_self, flushed_trace. cbn [_store trace]. split; [reflexivity|].
  change (WriteFile ?p ?o :: new ++ trace m)
    with ([WriteFile p o] ++ new ++ trace m).
  rewrite !disk_writes_app, (removal_notices_no_write new Hn).
  cbn [disk_writes List.filter is_WriteFile length]. lia.
Qed.

(** * The claims *)

(** C1, as amended.  For a store whose backing file exists, [write]
    rewrites the file exactly when the merged view differs by [dequal]
    from the snapshot, and the file then holds the merged view.  A second
    [write] directly after it is a no-op: it returns, changes nothing and
    writes nothing.  Two calls in a row therefore perform at most one
    disk write: exactly one when the merged view differed from the
    snapshot before the first call, none otherwise. *)
Theorem C1_write_rewrites_iff_changed (m : Machine) (f : object) :
  wf_machine m ->
  file_content m = Some f ->
  let unchanged := dequal (JObj (merged_view m)) (JObj (__proto__ (self m))) in
  let m' := after write m in
  (writes_by write m = 1%nat <-> unchanged = false)
  /\ (writes_by write m = 0%nat <-> unchanged = true)
  /\ (unchanged = false -> file_content m' = Some (merged_view m))
  /\ (unchanged = true -> m' = m)
  /\ result_of write m' = Returned tt
  /\ after write m' = m'
  /\ writes_by write m' = 0%nat
  /\ (writes_by write m + writes_by write m')%nat
     = (if unchanged then 0 else 1)%nat.
Proof.
  intros Hwf Hf unchanged m'.
  pose proof (write_twice m Hwf) as Htwice. fold m' in Htwice.
  assert (H2 : writes_by write m' = 0%nat).
  { unfold writes_by, after. rewrite Htwice. cbn [snd]. lia. }
  assert (H1 : writes_by write m = if unchanged then 0%nat else 1%nat).
  { subst unchanged.
    destruct (dequal (JObj (merged_view m)) (JObj (__proto__ (self m)))) eqn:Hd.
    - now apply (writes_by_noop m f).
    - apply writes_by_persist. now right. }
  split; [rewrite H1; now destruct unchanged|].
  split; [rewrite H1; now destruct unchanged|].
  split; [intros Hd; apply write_persist_view; now right|].
  split.
  { intros Hd. subst m'. unfold after. now rewrite (write_noop_run m f Hf Hd). }
  split; [unfold result_of; now rewrite Htwice|].
  split; [unfold after; now rewrite Htwice|].
  split; [exact H2|].
  rewrite H1, H2. now destruct unchanged.
Qed.

(** C1, the claim as stated fails.  The store left by
    [s.set({a: 1}); s.write()] has its backing file, and its merged view
    equals its snapshot: two further calls of [write] in a row perform no
    disk write at all, not one. *)
Lemma C1_two_writes_of_unchanged_store :
  file_content (after write pending_a) = Some [("a", JNum 1)]
  /\ writes_by write (after write pending_a) = 0%nat
  /\ writes_by write (after write (after write pending_a)) = 0%nat
  /\ (writes_by write (after write pending_a)
      + writes_by write (after write (after write pending_a)))%nat <> 1%nat.
Proof. vm_compute. repeat split. discriminate. Qed.

(** C1 (amended) at a store with a pending entry over an existing file. *)
Lemma C1_witness :
  wf_machine pending_b_on_file
  /\ file_content pending_b_on_file = Some [("a", JNum 1)]
  /\ writes_by write pending_b_on_file = 1%nat
  /\ file_content (after write pending_b_on_file)
     = Some (merged_view pending_b_on_file)
  /\ writes_by write (after write pending_b_on_file) = 0%nat
  /\ (writes_by write pending_b_on_file
      + writes_by write (after write pending_b_on_file))%nat = 1%nat.
Proof.
  assert (Hwf : wf_machine pending_b_on_file).
  { split; [reflexivity|]. split; [reflexivity|].
    intros o Ho. vm_compute in Ho. inversion Ho. reflexivity. }
  assert (Hf : file_content pending_b_on_file = Some [("a", JNum 1)])
    by reflexivity.
  pose proof (C1_write_rewrites_iff_changed pending_b_on_file _ Hwf Hf) as H.
  cbv zeta in H. destruct H as (H1 & _ & H3 & _ & _ & _ & H7 & H8).
  assert (Hd : dequal (JObj (merged_view pending_b_on_file))
                      (JObj (__proto__ (self pending_b_on_file))) = false)
    by reflexivity.
  split; [exact Hwf|]. split; [exact Hf|].
  split; [apply H1, Hd|]. split; [apply H3, Hd|].
  split; [exact H7 | rewrite H8, Hd; reflexivity].
Defined.





(** C4, as amended.  Every [write] that persists is followed by the
    byte-budget check: the serialized size of the merged mapping is
    computed and the notification [bytesLimitOver] is emitted exactly when
    it exceeds [_max]; a [write] that finds nothing to persist and every
    [remove], whether it rewrites the file or not, emit no such
    notification. *)
Theorem C4_budget_check_follows_persisting_write (m : Machine) :
  constructed (self m) ->
  (persisting m ->
   emitted_by "bytesLimitOver" write m
   = if bfo (JObj (merged_view (after write m))) >? _max (self (after write m))
     then 1%nat else 0%nat)
  /\ (~ persisting m -> emitted_by "bytesLimitOver" write m = 0%nat)
  /\ (forall args, emitted_by "bytesLimitOver" (remove args) m = 0%nat).
Proof.
  intros (_ & _ & He & _). split; [|split].
  - intros Hp. unfold emitted_by.
    destruct (write_persist_outcome m He Hp) as (_ & Hem).
    destruct (write_persist_view m Hp) as (_ & _ & _ & Hv).
    destruct (write_persist_after m Hp) as (Hs & _ & _).
    rewrite Hem, Hv, Hs, flushed_self. cbn [_max].
    destruct (bfo (JObj (merged_view m)) >? _max (self m)); lia.
  - intros Hnp. unfold emitted_by.
    destruct (file_content m) as [f|] eqn:Hf; [|exfalso; apply Hnp; now left].
    destruct (dequal (JObj (merged_view m)) (JObj (__proto__ (self m)))) eqn:Hd;
      [|exfalso; apply Hnp; now right].
    unfold after. rewrite (write_noop_run m f Hf Hd). cbn [snd]. lia.
  - intros args. now apply emitted_by_remove.
Qed.

(** C4, the claim as stated fails.  On a store whose file holds
    [{a: 1, big: <250000 letters>}], [remove("a")] rewrites the file with
    a mapping over the budget and returns; no byte-limit notification is
    emitted, so the eviction helper is not invoked. *)
Lemma C4_remove_rewrites_without_budget_check :
  writes_by (remove ["a"]) (store_on_big_file (text_value 250000)) = 1%nat
  /\ file_content (after (remove ["a"]) (store_on_big_file (text_value 250000)))
     = Some [("big", text_value 250000)]
  /\ bfo (JObj (merged_view (after (remove ["a"]) (store_on_big_file (text_value 250000)))))
     > _max (self (after (remove ["a"]) (store_on_big_file (text_value 250000))))
  /\ emitted_by "bytesLimitOver" (remove ["a"]) (store_on_big_file (text_value 250000))
     = 0%nat
  /\ result_of (remove ["a"]) (store_on_big_file (text_value 250000)) = Returned tt.
Proof.
  apply remove_on_big_file. apply bfo_text_value_gt; lia.
Qed.

(** C4 (amended) at a store with one small pending entry. *)
Lemma C4_witness :
  constructed (self pending_a)
  /\ persisting pending_a
  /\ emitted_by "bytesLimitOver" write pending_a = 0%nat
  /\ emitted_by "bytesLimitOver" (remove ["a"]) pending_a = 0%nat.
Proof.
  assert (Hc : constructed (self pending_a)) by (repeat split).
  assert (Hp : persisting pending_a) by (left; reflexivity).
  destruct (C4_budget_check_follows_persisting_write pending_a Hc) as (H1 & _ & H3).
  split; [exact Hc|]. split; [exact Hp|].
  split; [rewrite (H1 Hp); reflexivity | apply H3].
Defined.

(** C5.  For a [write] whose merged mapping exceeds the budget, the file
    and the snapshot hold the full merged mapping afterwards (the very
    mapping when the call writes, a structurally equal one when it finds
    nothing to write), the merged view is unchanged and the buffer is
    empty or untouched; every file write of the call has the full merged
    mapping as content.  The helper [reducebyts] itself only returns the
    reduced mapping: it writes nothing. *)
Theorem C5_eviction_is_advisory (m : Machine) :
  invariant m ->
  bfo (JObj (merged_view m)) > _max (self m) ->
  let m' := after write m in
  (exists f, file_content m' = Some f
             /\ dequal (JObj (merged_view m)) (JObj f) = true
             /\ length f = length (merged_view m))
  /\ dequal (JObj (merged_view m)) (JObj (__proto__ (self m'))) = true
  /\ merged_view m' = merged_view m
  /\ (_store (self m') = [] \/ _store (self m') = _store (self m))
  /\ (writes_by write m <= 1)%nat
  /\ (persisting m ->
      file_content m' = Some (merged_view m)
      /\ __proto__ (self m') = merged_view m
      /\ _store (self m') = [])
  /\ (forall p c, WriteFile p c ∈ trace m' ->
                  c = merged_view m \/ WriteFile p c ∈ trace m)
  /\ after (reducebyts ThisStore) m' = m'.
Proof.
  intros (Hc & Hwf & Hs) Hover m'.
  assert (Hrefl : dequal (JObj (merged_view m)) (JObj (merged_view m)) = true)
    by (apply dequal_refl; now apply wf_merged_view).
  assert (Hpure : after (reducebyts ThisStore) m' = m')
    by (unfold after; now rewrite reducebyts_pure).
  destruct (write_dichotomy m) as [Hp | (f & Hf & Hd)].
  - destruct (write_persist_view m Hp) as (H1 & H2 & H3 & H4). fold m' in H1, H2, H3, H4.
    split; [exists (merged_view m); auto|].
    split; [now rewrite H1|].
    split; [exact H4|].
    split; [now left|].
    split; [rewrite (writes_by_persist m Hp); lia|].
    split; [auto|].
    split; [|exact Hpure].
    intros p c Hin.
    destruct (write_persist_trace m Hp) as (new & pre & Ht & Hnew & Hpre).
    fold m' in Ht. rewrite Ht in Hin.
    apply elem_of_app in Hin as [Hin|Hin];
      [now apply disk_writes_zero_elem in Hin|].
    apply elem_of_cons in Hin as [Heq|Hin]; [left; congruence|].
    apply elem_of_app in Hin as [Hin|Hin];
      [now apply disk_writes_zero_elem in Hin | now right].
  - assert (Hm' : m' = m)
      by (subst m'; unfold after; now rewrite (write_noop_run m f Hf Hd)).
    rewrite Hm' in *.
    assert (Hpf : __proto__ (self m) = f).
    { destruct Hs as [He | Hsync]; [|congruence].
      exfalso. rewrite He in Hd. apply dequal_obj_length in Hd.
      destruct (merged_view m); [|discriminate].
      destruct Hc as (_ & _ & _ & Hmax). rewrite Hmax in Hover.
      vm_compute in Hover. discriminate. }
    pose proof (not_persisting m f Hf Hd) as Hnp.
    split.
    { exists f. rewrite Hpf in Hd. split; [exact Hf|]. split; [exact Hd|].
      now apply dequal_obj_length in Hd. }
    split; [exact Hd|].
    split; [reflexivity|].
    split; [now right|].
    split; [rewrite (writes_by_noop m f Hf Hd); lia|].
    split; [intros Hp; contradiction|].
    split; [intros p c Hin; now right | exact Hpure].
Qed.

(** C5 at a store whose only entry exceeds the budget. *)
Lemma C5_witness :
  invariant (store_with_big (text_value 250000))
  /\ bfo (JObj (merged_view (store_with_big (text_value 250000))))
     > _max (self (store_with_big (text_value 250000)))
  /\ merged_view (after write (store_with_big (text_value 250000)))
     = merged_view (store_with_big (text_value 250000))
  /\ file_content (after write (store_with_big (text_value 250000)))
     = Some (merged_view (store_with_big (text_value 250000))).
Proof.
  assert (Hinv : invariant (store_with_big (text_value 250000)))
    by (apply invariant_store_with_big; reflexivity).
  assert (Hbig : bfo (text_value 250000) > 249992)
    by (apply bfo_text_value_gt; lia).
  destruct (write_over_budget_throws (text_value 250000) Hbig) as (Hover & _).
  destruct (C5_eviction_is_advisory _ Hinv Hover) as (_ & _ & Hv & _ & _ & Hp & _ & _).
  split; [exact Hinv|]. split; [exact Hover|]. split; [exact Hv|].
  apply Hp. left. reflexivity.
Defined.

(** C6, at the failing input [new Store("s").set("big", "x".repeat(250000))]:
    with a merged mapping over the budget, [write] persists the mapping
    (file, snapshot and buffer are as after any persisting [write]) and
    then throws a [TypeError], because the listener of the byte-limit
    notification is the method [reducebyts] registered without its
    receiver. *)
Theorem C6_write_throws_over_budget :
  bfo (JObj (merged_view (store_with_big (text_value 250000))))
  > _max (self (store_with_big (text_value 250000)))
  /\ result_of write (store_with_big (text_value 250000))
     = Threw (TypeError "this.getNewStore is not a function")
  /\ file_content (after write (store_with_big (text_value 250000)))
     = Some [("big", text_value 250000)]
  /\ __proto__ (self (after write (store_with_big (text_value 250000))))
     = [("big", text_value 250000)]
  /\ _store (self (after write (store_with_big (text_value 250000)))) = [].
Proof.
  apply write_over_budget_throws. apply bfo_text_value_gt; lia.
Qed.

(** C7, at the failing input
    [s.set({a: 1, b: 2}); s.write(); s.set({c: 3}); s.remove("a")]:
    the buffer held [c] before the call, [c] is not among the removed
    keys, and after the call the buffer is empty and [get("c")] is
    [undefined]: the rewrite of [remove] goes through [_write], which
    empties the whole buffer. *)
Theorem C7_remove_drops_pending_entries :
  Obj.get (_store (self pending_c)) "c" = Some (JNum 3)
  /\ result_of (get "c") pending_c = Returned (Some (JNum 3))
  /\ Obj.get (_store (self (after (remove ["a"]) pending_c))) "c" = None
  /\ _store (self (after (remove ["a"]) pending_c)) = []
  /\ file_content (after (remove ["a"]) pending_c) = Some [("b", JNum 2)]
  /\ result_of (get "c") (after (remove ["a"]) pending_c) = Returned None.
Proof. vm_compute. repeat split. Qed.

(** C8.  After [set({a: 1}); write()], [remove("a")] finds the on-disk
    mapping without [a] different from the snapshot, rewrites the file at
    once (one disk write, no call to [write]) and records the new
    snapshot; a new instance of the same name then returns [undefined]
    for [get("a")]. *)
Theorem C8_remove_rewrites_immediately (m : Machine) :
  invariant m ->
  let m2 := after write (after (set (Set_obj [("a", JNum 1)])) m) in
  let m3 := after (remove ["a"]) m2 in
  (exists f, file_content m2 = Some f
             /\ Obj.get f "a" = Some (JNum 1)
             /\ dequal (JObj (Obj.delete f "a")) (JObj (__proto__ (self m2))) = false
             /\ file_content m3 = Some (Obj.delete f "a")
             /\ __proto__ (self m3) = Obj.delete f "a")
  /\ result_of (remove ["a"]) m2 = Returned tt
  /\ writes_by (remove ["a"]) m2 = 1%nat
  /\ result_of (get "a") (boot (Some (_name (self m))) (disk m3)) = Returned None.
Proof.
  intros Hinv m2 m3.
  destruct (set_a_write m Hinv) as (Hinv2 & Hname & f & Hf & Hpr & Ha).
  fold m2 in Hinv2, Hname, Hf, Hpr.
  assert (Hinv3 : invariant m3) by now apply invariant_remove.
  destruct (remove_run ["a"] m2) as (new & Hn & Hrun); [apply Hinv2|].
  cbv zeta in Hrun. rewrite Hf in Hrun.
  change (delete_all (default [] (Some f)) ["a"]) with (Obj.delete f "a") in Hrun.
  assert (Hd : dequal (JObj (Obj.delete f "a")) (JObj (__proto__ (self m2))) = false).
  { apply dequal_obj_length_ne. rewrite Hpr.
    assert (Hlt : (length (Obj.delete f "a") < length f)%nat); [|lia].
    apply length_delete_lt, has_elem_of. now apply (get_Some_keys f "a" (JNum 1)). }
  rewrite Hd in Hrun.
  assert (Hf3 : file_content m3 = Some (Obj.delete f "a")).
  { unfold m3, after. rewrite Hrun. cbn [snd]. apply flushed_file_content. }
  assert (Hname3 : _name (self m3) = _name (self m)).
  { unfold m3, after. rewrite Hrun. cbn [snd]. rewrite flushed_self. exact Hname. }
  split.
  { exists f. repeat split; auto.
    unfold m3, after. rewrite Hrun. cbn [snd]. now rewrite flushed_self. }
  split; [unfold result_of; now rewrite Hrun|].
  split.
  { unfold writes_by, after. rewrite Hrun. cbn [snd]. rewrite flushed_trace.
    cbn [trace].
    change (WriteFile ?p ?o :: new ++ trace m2)
      with ([WriteFile p o] ++ new ++ trace m2).
    rewrite !disk_writes_app, (removal_notices_no_write new Hn).
    cbn [disk_writes List.filter is_WriteFile length]. lia. }
  unfold result_of. rewrite get_run, <- Hname3.
  rewrite (boot_reads_file m3 (Obj.delete f "a")).
  - now rewrite get_delete_eq.
  - apply Hinv3.
  - exact Hf3.
  - apply wf_object_NoDup. destruct Hinv3 as (_ & (_ & _ & Hwf) & _). now apply Hwf.
Qed.

(** C8 from a new store on an empty disk. *)
Lemma C8_witness :
  invariant fresh_store
  /\ writes_by (remove ["a"]) (after write pending_a) = 1%nat
  /\ result_of (get "a")
       (boot (Some "s") (disk (after (remove ["a"]) (after write pending_a))))
     = Returned None.
Proof.
  split; [exact invariant_fresh_store|].
  destruct (C8_remove_rewrites_immediately fresh_store invariant_fresh_store)
    as (_ & _ & Hw & Hg).
  split; [exact Hw | exact Hg].
Defined.

(** C9.  After [set({a: 1}); write()] on a store, a new instance of the
    same name reads the persisted file and [get("a")] returns [1]. *)
Theorem C9_round_trip_through_file (m : Machine) :
  invariant m ->
  let m2 := after write (after (set (Set_obj [("a", JNum 1)])) m) in
  (exists f, file_content m2 = Some f /\ Obj.get f "a" = Some (JNum 1))
  /\ result_of (get "a") (boot (Some (_name (self m))) (disk m2))
     = Returned (Some (JNum 1)).
Proof.
  intros Hinv m2.
  destruct (set_a_write m Hinv) as (Hinv2 & Hname & f & Hf & Hpr & Ha).
  fold m2 in Hinv2, Hname, Hf, Hpr.
  split; [now exists f|].
  unfold result_of. rewrite get_run, <- Hname.
  rewrite (boot_reads_file m2 f); [now rewrite Ha | apply Hinv2 | exact Hf |].
  apply wf_object_NoDup. destruct Hinv2 as (_ & (_ & _ & Hwf) & _). now apply Hwf.
Qed.

(** C9 from a new store on an empty disk. *)
Lemma C9_witness :
  invariant fresh_store
  /\ result_of (get "a") (boot (Some "s") (disk (after write pending_a)))
     = Returned (Some (JNum 1)).
Proof.
  split; [exact invariant_fresh_store|].
  apply (C9_round_trip_through_file fresh_store invariant_fresh_store).
Defined.



(** * Further properties of the code *)

(** ** Reading and buffering *)

Lemma NoDup_keys_spread (o : object) : NoDup (Obj.keys (Obj.spread o)).
Proof. unfold Obj.spread. apply NoDup_keys_assign. constructor. Qed.

Lemma get_assign_None (acc src : object) (k : string) :
  NoDup (Obj.keys src) ->
  Obj.get (Obj.assign acc src) k = None -> Obj.get acc k = None.
Proof.
  intros Hnd. rewrite get_assign by exact Hnd.
  destruct (Obj.get src k); [discriminate|trivial].
Qed.

(** The merged view once [set] has replaced the buffer. *)
Lemma get_merged_view_buffered (m : Machine) (buf : object) (k : string) :
  NoDup (Obj.keys buf) ->
  (forall k', Obj.get buf k' = None -> Obj.get (merged_view m) k' = None) ->
  Obj.get (merged_view (mkMachine (with_buffer (self m) buf) (disk m) (trace m))) k
  = match Obj.get buf k with
    | Some v => Some v
    | None => Obj.get (merged_view m) k
    end.
Proof.
  intros Hnd Hcov.
  rewrite merged_view_eq. unfold file_content. cbn [self disk with_buffer _filePath _store].
  rewrite (spread_id buf) by exact Hnd.
  rewrite get_assign by exact Hnd.
  destruct (Obj.get buf k) as [v|] eqn:Hb; [reflexivity|].
  specialize (Hcov k Hb). rewrite Hcov.
  rewrite merged_view_eq in Hcov.
  apply get_assign_None in Hcov; [exact Hcov|apply NoDup_keys_spread].
Qed.




(** X2.  [set(obj)] only buffers: it returns, and leaves the disk, the
    trace and the snapshot as they were.  Afterwards [get] of a key of
    [obj] returns the value given ([undefined] for [null]), and [get] of
    any other key returns what it returned before. *)
Theorem set_buffers_and_is_read_back (obj : object) (m : Machine) (k : string) :
  NoDup (Obj.keys obj) ->
  let m' := after (set (Set_obj obj)) m in
  result_of (set (Set_obj obj)) m = Returned tt
  /\ disk m' = disk m
  /\ trace m' = trace m
  /\ __proto__ (self m') = __proto__ (self m)
  /\ result_of (get k) m'
     = match Obj.get obj k with
       | Some v => Returned (nullish_undefined (Some v))
       | None => result_of (get k) m
       end.
Proof.
  intros Hnd m'. subst m'. unfold after, result_of.
  rewrite set_run. cbn [fst snd disk trace self with_buffer __proto__].
  do 4 (split; [reflexivity|]).
  rewrite !get_run. cbn [fst set_buffer].
  rewrite (spread_id (merged_view m)) by apply NoDup_merged_view.
  assert (Hb : forall k', Obj.get (Obj.assign (merged_view m) obj) k'
                          = match Obj.get obj k' with
                            | Some v => Some v
                            | None => Obj.get (merged_view m) k'
                            end)
    by (intros k'; apply get_assign, Hnd).
  rewrite get_merged_view_buffered.
  - rewrite Hb. destruct (Obj.get obj k) as [v|]; [reflexivity|].
    now destruct (Obj.get (merged_view m) k).
  - apply NoDup_keys_assign, NoDup_merged_view.
  - intros k'. rewrite Hb. now destruct (Obj.get obj k').
Qed.

Lemma set_buffers_and_is_read_back_witness :
  result_of (get "b") pending_b_on_file = Returned (Some (JNum 2)).
Proof.
  refine (proj2 (proj2 (proj2 (proj2
    (set_buffers_and_is_read_back [("b", JNum 2)]
       (boot (Some "s") (disk_with [("a", JNum 1)])) "b" _))))).
  apply nodup_keys_NoDup. reflexivity.
Defined.


(** ** Writing *)


(** X4.  [write] never changes what the store reads: the merged view, and
    so the result of every [get], is the same after [write] as before,
    whether [write] rewrote the file, skipped the rewrite or threw. *)
Theorem write_preserves_merged_view (m : Machine) :
  merged_view (after write m) = merged_view m
  /\ forall k, result_of (get k) (after write m) = result_of (get k) m.
Proof.
  assert (H : merged_view (after write m) = merged_view m).
  { destruct (write_dichotomy m) as [Hp|(f & Hf & Heq)].
    - apply (write_persist_view m Hp).
    - unfold after. now rewrite (write_noop_run m f Hf Heq). }
  split; [exact H|].
  intros k. unfold result_of. rewrite !get_run. cbn [fst]. now rewrite H.
Qed.



(** X6.  When [write] throws.  On an instance as the constructor builds
    it, [write] throws exactly when it persists a merged mapping whose
    serialization is over the byte budget; the error is then the
    [TypeError] of the unbound listener.  In every other case [write]
    returns. *)
Theorem write_throws_iff_it_persists_over_budget (m : Machine) :
  constructed (self m) ->
  (result_of write m = Threw (TypeError "this.getNewStore is not a function")
   <-> persisting m /\ bfo (JObj (merged_view m)) > _max (self m))
  /\ (result_of write m = Returned tt
      <-> ~ (persisting m /\ bfo (JObj (merged_view m)) > _max (self m))).
Proof.
  intros (_ & _ & Hev & _).
  destruct (write_dichotomy m) as [Hp|(f & Hf & Heq)].
  - destruct (write_persist_outcome m Hev Hp) as (Hres & _). rewrite Hres.
    destruct (Z.gtb_spec (bfo (JObj (merged_view m))) (_max (self m))) as [Hgt|Hle].
    + split; split; try discriminate; try tauto.
      * intros _. split; [exact Hp|lia].
      * intros Hn. exfalso. apply Hn. split; [exact Hp|lia].
    + split; split; try discriminate; try tauto.
      * intros (_ & Hgt). lia.
      * intros _ (_ & Hgt). lia.
  - pose proof (not_persisting m f Hf Heq) as Hnp.
    unfold result_of. rewrite (write_noop_run m f Hf Heq). cbn [fst].
    split; split; try discriminate; tauto.
Qed.

Lemma write_throws_iff_it_persists_over_budget_witness :
  result_of write pending_a = Returned tt.
Proof.
  apply (proj2 (write_throws_iff_it_persists_over_budget pending_a
                  ltac:(repeat split))).
  intros (_ & Hgt). vm_compute in Hgt. discriminate.
Defined.

Lemma checkDir_run (m : Machine) :
  checkDir m
  = if bool_decide (_storeDir (self m) ∈ dirs (disk m))
    then (Returned tt, m)
    else (Returned tt,
          mkMachine (self m)
                    (mkDisk ({[_storeDir (self m)]} ∪ dirs (disk m)) (files (disk m)))
                    (Mkdir (_storeDir (self m)) :: trace m)).
Proof.
  unfold checkDir, bind, this_, fs.existsSync_dir, fs.mkdirSync, ret.
  now destruct (bool_decide (_storeDir (self m) ∈ dirs (disk m))).
Qed.

Lemma emitEvent_trace (m : Machine) :
  exists new,
    after emitEvent m = mkMachine (self m) (disk m) (new ++ trace m)
    /\ List.filter is_Mkdir new = [].
Proof.
  destruct (emitEvent_frame m) as (new & Hafter & _).
  exists new. split; [exact Hafter|].
  revert Hafter. unfold after, emitEvent, bind. rewrite getNewStore_run.
  unfold this_. cbn [fst snd].
  destruct (bfo (JObj (merged_view m)) >? _max (self m)).
  - unfold emit, bind, perform, this_. cbn [self disk trace].
    remember (mkMachine (self m) (disk m) (Emit "bytesLimitOver" [] :: trace m)) as m1.
    destruct (call_listeners_frame (events (self m)) "bytesLimitOver" [] m1)
      as (logs & Hl & Hlogs).
    unfold after in Hl.
    destruct (call_listeners (events (self m)) "bytesLimitOver" [] m1) as [[a|e] m2];
      cbn [snd] in Hl |- *; subst m2 m1; cbn [trace];
      intros [= Ht]; 
      change (logs ++ Emit "bytesLimitOver" [] :: trace m)
        with (logs ++ [Emit "bytesLimitOver" []] ++ trace m) in Ht;
      rewrite app_assoc in Ht; apply app_inv_tail in Ht; subst new;
      rewrite List.filter_app; cbn [List.filter is_Mkdir app];
      rewrite app_nil_r; apply filter_none;
      (eapply forallb_weaken; [|exact Hlogs]); now intros [].
  - unfold ret. cbn [snd]. destruct m as [s d t]. cbn [self disk trace].
    intros [= Ht]. 
    assert (new = []) as ->; [|reflexivity].
    apply (app_inv_tail t new []). symmetry. exact Ht.
Qed.

(** X7.  The store directory.  A [write] that finds no backing file leaves
    the store directory in place, creating it (one [mkdir]) only when it
    is missing; a [write] that finds the file creates no directory. *)
Theorem write_creates_directory_when_missing (m : Machine) :
  let dir := _storeDir (self m) in
  dirs (disk (after write m))
  = match file_content m with
    | None => {[dir]} ∪ dirs (disk m)
    | Some _ => dirs (disk m)
    end
  /\ exists new,
       trace (after write m) = new ++ trace m
       /\ List.filter is_Mkdir new
          = match file_content m with
            | None => if bool_decide (dir ∈ dirs (disk m)) then [] else [Mkdir dir]
            | Some _ => []
            end.
Proof.
  intros dir. subst dir.
  destruct (file_content m) as [f|] eqn:Hf.
  - destruct (dequal (JObj (merged_view m)) (JObj (__proto__ (self m)))) eqn:Heq.
    + unfold after. rewrite (write_noop_run m f Hf Heq). cbn [snd].
      split; [reflexivity|]. now exists [].
    + unfold after. rewrite (write_rewrite_run m f Hf Heq).
      destruct (emitEvent_trace (flushed m (merged_view m))) as (new & Hafter & Hnew).
      unfold after in Hafter. rewrite Hafter. cbn [disk trace].
      rewrite flushed_disk, flushed_trace. cbn [dirs].
      split; [reflexivity|].
      exists (new ++ [WriteFile (_filePath (self m)) (merged_view m)]).
      split; [now rewrite <- app_assoc|].
      rewrite List.filter_app, Hnew. reflexivity.
  - unfold after. rewrite (write_first_run m Hf).
    destruct (emitEvent_trace (flushed (after checkDir m) (merged_view m)))
      as (new & Hafter & Hnew).
    unfold after in Hafter at 1. rewrite Hafter. cbn [disk trace].
    rewrite flushed_disk, flushed_trace. cbn [dirs].
    unfold after. rewrite checkDir_run.
    destruct (bool_decide_reflect (_storeDir (self m) ∈ dirs (disk m))) as [Hin|Hout];
      cbn [snd self disk trace dirs].
    + split.
      { apply set_eq. intros x. rewrite elem_of_union, elem_of_singleton.
        split; [tauto|]. intros [->|Hx]; assumption. }
      exists (new ++ [WriteFile (_filePath (self m)) (merged_view m)]).
      split; [now rewrite <- app_assoc|].
      rewrite List.filter_app, Hnew. reflexivity.
    + split; [reflexivity|].
      exists (new ++ [WriteFile (_filePath (self m)) (merged_view m);
                      Mkdir (_storeDir (self m))]).
      split; [now rewrite <- app_assoc|].
      rewrite List.filter_app, Hnew. reflexivity.
Qed.

(** ** Removing *)

Lemma delete_all_nil (args : list string) : delete_all [] args = [].
Proof. induction args as [|a args IH]; [reflexivity|exact IH]. Qed.

Lemma delete_all_cons (o : object) (a : string) (args : list string) :
  delete_all o (a :: args) = delete_all (Obj.delete o a) args.
Proof. reflexivity. Qed.

Lemma get_delete_all_None (args : list string) :
  forall (o : object) (k : string),
    Obj.get o k = None -> Obj.get (delete_all o args) k = None.
Proof.
  induction args as [|a args IH]; intros o k H; [exact H|].
  rewrite delete_all_cons. apply IH.
  destruct (String.eqb_spec a k) as [->|Hne].
  - apply get_delete_eq.
  - now rewrite get_delete_ne.
Qed.

Lemma get_delete_all_in (args : list string) :
  forall (o : object) (k : string),
    k ∈ args -> Obj.get (delete_all o args) k = None.
Proof.
  induction args as [|a args IH]; intros o k Hin.
  - now apply elem_of_nil in Hin.
  - rewrite delete_all_cons. apply elem_of_cons in Hin as [->|Hin].
    + apply get_delete_all_None, get_delete_eq.
    + now apply IH.
Qed.

Lemma length_delete_all_le (args : list string) :
  forall o : object, (length (delete_all o args) <= length o)%nat.
Proof.
  induction args as [|a args IH]; intros o; [reflexivity|].
  rewrite delete_all_cons. specialize (IH (Obj.delete o a)).
  pose proof (length_delete_le o a). lia.
Qed.

Lemma delete_all_same_length (args : list string) :
  forall o : object,
    length (delete_all o args) = length o ->
    forall k, k ∈ args -> Obj.has o k = false.
Proof.
  induction args as [|a args IH]; intros o Hlen k Hin.
  - now apply elem_of_nil in Hin.
  - rewrite delete_all_cons in Hlen.
    assert (Ha : Obj.has o a = false).
    { destruct (Obj.has o a) eqn:Ha; [|reflexivity].
      pose proof (length_delete_lt o a Ha).
      pose proof (length_delete_all_le args (Obj.delete o a)). lia. }
    rewrite (delete_absent o a Ha) in Hlen.
    apply elem_of_cons in Hin as [->|Hin]; [exact Ha|].
    now apply (IH o).
Qed.

Lemma has_get_None (o : object) (k : string) :
  Obj.has o k = false <-> Obj.get o k = None.
Proof. now rewrite has_false, get_None. Qed.

Lemma remove_returns (args : list string) (m : Machine) :
  events (self m) = events (new_Store None) ->
  result_of (remove args) m = Returned tt.
Proof.
  intros Hev. destruct (remove_run args m Hev) as (new & _ & Hrun).
  cbv zeta in Hrun. unfold result_of. rewrite Hrun.
  now destruct (dequal _ _).
Qed.



(** X9.  On a new instance, [remove] of keys that cover the whole file
    does not touch the file: the file mapping with the keys deleted is
    [{}], which equals the still empty snapshot, so the rewrite is
    skipped.  The disk is unchanged and every key, the listed ones
    included, reads as before. *)
Theorem remove_of_whole_file_on_new_instance_is_skipped
    (name : option string) (d : Disk) (args : list string) (f : object) :
  files d !! _filePath (new_Store name) = Some f ->
  delete_all f args = [] ->
  let m := boot name d in
  result_of (remove args) m = Returned tt
  /\ disk (after (remove args) m) = d
  /\ self (after (remove args) m) = self m
  /\ forall k, result_of (get k) (after (remove args) m) = result_of (get k) m.
Proof.
  intros Hf Hdel m.
  assert (Hev : events (self m) = events (new_Store None)) by reflexivity.
  split; [now apply remove_returns|].
  destruct (remove_run args m Hev) as (new & _ & Hrun). cbv zeta in Hrun.
  assert (Hfc : file_content m = Some f) by exact Hf.
  rewrite Hfc in Hrun. cbn [default from_option id] in Hrun. rewrite Hdel in Hrun.
  change (__proto__ (self m)) with (@nil (string * json)) in Hrun.
  change (_store (self m)) with (@nil (string * json)) in Hrun.
  rewrite delete_all_nil in Hrun.
  change (dequal (JObj []) (JObj [])) with true in Hrun.
  unfold after, result_of. rewrite Hrun. cbn [snd disk self].
  split; [reflexivity|]. split; [reflexivity|].
  intros k. rewrite !get_run. cbn [fst].
  now rewrite !merged_view_eq.
Qed.

Lemma remove_of_whole_file_on_new_instance_is_skipped_witness :
  result_of (get "a") (after (remove ["a"]) (boot (Some "s") (disk_with [("a", JNum 1)])))
  = Returned (Some (JNum 1)).
Proof.
  refine (eq_trans (proj2 (proj2 (proj2
    (remove_of_whole_file_on_new_instance_is_skipped
       (Some "s") (disk_with [("a", JNum 1)]) ["a"] [("a", JNum 1)] _ _))) "a") _).
  - reflexivity.
  - reflexivity.
  - reflexivity.
Defined.

Lemma remove_loop_absent (args : list string) :
  forall (_fs : object) (m : Machine),
    (forall k, k ∈ args ->
       Obj.has (_store (self m)) k = false /\ Obj.has _fs k = false) ->
    remove_loop args _fs m = (Returned _fs, m).
Proof.
  induction args as [|a args IH]; intros _fs m Habs; [reflexivity|].
  destruct (Habs a (list_elem_of_here _ _)) as (Hb & Hf).
  cbn [remove_loop]. unfold bind at 1.
  assert (Hstep : remove_step a _fs m = (Returned _fs, m)).
  { unfold remove_step, bind, this_. rewrite Hb, Hf. reflexivity. }
  rewrite Hstep. apply IH.
  intros k Hk. apply Habs, list_elem_of_further, Hk.
Qed.

Lemma remove_absent_run (args : list string) (m : Machine) :
  (forall k, k ∈ args ->
     Obj.has (_store (self m)) k = false
     /\ Obj.has (default [] (file_content m)) k = false) ->
  dequal (JObj (default [] (file_content m))) (JObj (__proto__ (self m))) = true ->
  remove args m = (Returned tt, m).
Proof.
  intros Habs Heq.
  unfold remove. unfold bind at 1. rewrite getFormFile_run.
  unfold bind at 1. rewrite (remove_loop_absent args _ m Habs).
  unfold bind, this_. now rewrite Heq.
Qed.

(** X10.  [remove] of keys that are neither in the buffer nor in the file
    does nothing when the snapshot is equal to the content of the file:
    no deletion, no notification, no disk write, and it returns. *)
Theorem remove_of_absent_keys_does_nothing (args : list string) (m : Machine) :
  (forall k, k ∈ args ->
     Obj.has (_store (self m)) k = false
     /\ Obj.has (default [] (file_content m)) k = false) ->
  dequal (JObj (default [] (file_content m))) (JObj (__proto__ (self m))) = true ->
  remove args m = (Returned tt, m)
  /\ writes_by (remove args) m = 0%nat.
Proof.
  intros Habs Heq.
  pose proof (remove_absent_run args m Habs Heq) as Hrun.
  split; [exact Hrun|].
  unfold writes_by, after. rewrite Hrun. cbn [snd]. lia.
Qed.

Lemma remove_of_absent_keys_does_nothing_witness :
  remove ["zzz"] (after write pending_a) = (Returned tt, after write pending_a)
  /\ writes_by (remove ["zzz"]) (after write pending_a) = 0%nat.
Proof.
  apply (remove_of_absent_keys_does_nothing ["zzz"] (after write pending_a)).
  - intros k Hk. apply list_elem_of_singleton in Hk as ->. split; reflexivity.
  - reflexivity.
Defined.

Lemma remove_step_exact (key : string) (_fs : object) (m : Machine) :
  events (self m) = events (new_Store None) ->
  remove_step key _fs m
  = (Returned (Obj.delete _fs key),
     mkMachine (with_buffer (self m) (Obj.delete (_store (self m)) key))
               (disk m)
               ((if Obj.has _fs key
                 then [Emit "removedFromFileStorage" [key]] else [])
                ++ (if Obj.has (_store (self m)) key
                    then [ConsoleLog ("The value of " ++ key
                                      ++ " removed from temp storage.")%string;
                          Emit "removedFromTempStorage" [key]]
                    else [])
                ++ trace m)).
Proof.
  destruct m as [[name st dir path pr ev mx] d tr]. cbn [self events].
  intros ->. unfold remove_step, bind, this_. cbn [self _store].
  destruct (Obj.has st key) eqn:Hb; destruct (Obj.has _fs key) eqn:Hf;
    rewrite ?(delete_absent _ _ Hb), ?(delete_absent _ _ Hf); reflexivity.
Qed.

Lemma logged_app (t1 t2 : list effect) : logged (t1 ++ t2) = logged t1 ++ logged t2.
Proof. apply omap_app. Qed.

Lemma emitted_app (t1 t2 : list effect) : emitted (t1 ++ t2) = emitted t1 ++ emitted t2.
Proof. apply omap_app. Qed.

Lemma has_delete_sub (o : object) (k k' : string) :
  Obj.has (Obj.delete o k) k' = true -> Obj.has o k' = true.
Proof. rewrite !has_elem_of. apply keys_delete_sub. Qed.

Lemma has_delete_ne (o : object) (k k' : string) :
  k <> k' -> Obj.has o k' = true -> Obj.has (Obj.delete o k) k' = true.
Proof.
  intros Hne H. destruct (Obj.has (Obj.delete o k) k') eqn:E; [reflexivity|].
  apply has_get_None in E. rewrite get_delete_ne in E by exact Hne.
  apply has_get_None in E. congruence.
Qed.

Lemma remove_loop_notices (args : list string) :
  forall (_fs : object) (m : Machine),
    events (self m) = events (new_Store None) ->
    exists new,
      remove_loop args _fs m
      = (Returned (delete_all _fs args),
         mkMachine (with_buffer (self m) (delete_all (_store (self m)) args))
                   (disk m) (new ++ trace m))
      /\ (forall msg, msg ∈ logged new ->
            exists k, k ∈ args /\ Obj.has (_store (self m)) k = true
                      /\ msg = ("The value of " ++ k ++ " removed from temp storage.")%string)
      /\ (forall k, k ∈ args -> Obj.has _fs k = true ->
            ("removedFromFileStorage"%string, [k]) ∈ emitted new)
      /\ List.filter is_WriteFile new = [].
Proof.
  induction args as [|key rest IH]; intros _fs m He.
  - exists []. split; [|split; [|split]].
    + simpl. unfold ret. rewrite with_buffer_id. now destruct m.
    + intros msg H. now apply elem_of_nil in H.
    + intros k H. now apply elem_of_nil in H.
    + reflexivity.
  - pose proof (remove_step_exact key _fs m He) as Hstep.
    cbn [remove_loop]. unfold bind at 1. rewrite Hstep.
    match goal with |- context [remove_loop rest _ ?m1] =>
      destruct (IH (Obj.delete _fs key) m1 He) as (new2 & Hloop & Hlog & Hemit & Hnw)
    end.
    rewrite Hloop. cbn [self disk trace with_buffer _store] in *.
    exists (new2
            ++ (if Obj.has _fs key
                then [Emit "removedFromFileStorage" [key]] else [])
            ++ (if Obj.has (_store (self m)) key
                then [ConsoleLog ("The value of " ++ key
                                  ++ " removed from temp storage.")%string;
                      Emit "removedFromTempStorage" [key]]
                else [])).
    split; [|split; [|split]].
    + cbn [with_buffer _name _storeDir _filePath __proto__ events _max].
      rewrite !delete_all_cons. f_equal. f_equal.
      now rewrite <- !app_assoc.
    + intros msg Hmsg. rewrite logged_app in Hmsg.
      apply elem_of_app in Hmsg as [Hmsg|Hmsg].
      * destruct (Hlog msg Hmsg) as (k & Hk & Hhas & ->).
        exists k. split; [now apply list_elem_of_further|].
        split; [now apply has_delete_sub in Hhas|reflexivity].
      * exists key. split; [apply list_elem_of_here|].
        destruct (Obj.has _fs key); destruct (Obj.has (_store (self m)) key);
          cbn in Hmsg; try (now apply elem_of_nil in Hmsg);
          apply list_elem_of_singleton in Hmsg as ->; split; reflexivity.
    + intros k Hk Hhas. rewrite emitted_app. apply elem_of_app.
      destruct (String.eqb_spec key k) as [->|Hne].
      * right. rewrite Hhas, emitted_app. apply elem_of_app. left.
        apply list_elem_of_here.
      * left. apply Hemit; [|now apply has_delete_ne].
        apply elem_of_cons in Hk as [->|Hk]; [congruence|exact Hk].
    + rewrite !List.filter_app, Hnw.
      now destruct (Obj.has _fs key); destruct (Obj.has (_store (self m)) key).
Qed.

(** X11.  What [remove] reports.  Every line it logs is the
    "removed from temp storage" line of a listed key that was in the
    buffer.  For a listed key of the file it emits
    [removedFromFileStorage], which no listener receives (the constructor
    registers its file-storage logger under the name
    [removedFromFileStorag]), so removing persisted entries logs
    nothing. *)
Theorem remove_logs_buffer_removals_only (args : list string) (m : Machine) :
  events (self m) = events (new_Store None) ->
  exists new,
    trace (after (remove args) m) = new ++ trace m
    /\ (forall msg, msg ∈ logged new ->
          exists k, k ∈ args /\ Obj.has (_store (self m)) k = true
                    /\ msg = ("The value of " ++ k ++ " removed from temp storage.")%string)
    /\ (forall k, k ∈ args -> Obj.has (default [] (file_content m)) k = true ->
          ("removedFromFileStorage"%string, [k]) ∈ emitted new).
Proof.
  intros He.
  destruct (remove_loop_notices args (default [] (file_content m)) m He)
    as (new & Hloop & Hlog & Hemit & _).
  unfold after, remove. unfold bind at 1. rewrite getFormFile_run.
  unfold bind at 1. rewrite Hloop.
  unfold bind at 1. unfold this_ at 1. cbn [self with_buffer __proto__].
  destruct (negb (dequal _ _)).
  - match goal with |- context [bind ?c ?k ?m1] =>
      change (snd (bind c k m1)) with (flushed m1 (delete_all (default [] (file_content m)) args))
    end.
    rewrite flushed_trace. cbn [trace].
    eexists (_ :: new). split; [reflexivity|]. split.
    + intros msg Hmsg. apply Hlog. exact Hmsg.
    + intros k Hk Hhas. apply (Hemit k Hk Hhas).
  - exists new. split; [reflexivity|]. split; assumption.
Qed.

Lemma remove_logs_buffer_removals_only_witness :
  exists new,
    trace (after (remove ["a"]) (after write pending_a))
    = new ++ trace (after write pending_a)
    /\ (forall msg, msg ∈ logged new ->
          exists k, k ∈ ["a"] /\ Obj.has (_store (self (after write pending_a))) k = true
                    /\ msg = ("The value of " ++ k ++ " removed from temp storage.")%string)
    /\ (forall k, k ∈ ["a"] ->
          Obj.has (default [] (file_content (after write pending_a))) k = true ->
          ("removedFromFileStorage"%string, [k]) ∈ emitted new).
Proof.
  apply (remove_logs_buffer_removals_only ["a"] (after write pending_a)).
  reflexivity.
Defined.

(** X12.  [remove] is idempotent.  On an instance whose snapshot is the
    content of its file (or that has no file), a second [remove] of the
    same keys right after the first changes nothing and writes
    nothing. *)
Theorem remove_twice_is_remove_once (args : list string) (m : Machine) :
  constructed (self m) ->
  wf_machine m ->
  file_content m = None \/ file_content m = Some (__proto__ (self m)) ->
  let m' := after (remove args) m in
  remove args m' = (Returned tt, m').
Proof.
  intros (_ & _ & Hev & _) (Hb & Hp & Hf) Hsync m'.
  destruct (remove_run args m Hev) as (new & _ & Hrun). cbv zeta in Hrun.
  set (fs' := delete_all (default [] (file_content m)) args) in *.
  set (buf' := delete_all (_store (self m)) args) in *.
  assert (Hwf_fs : wf_object fs' = true).
  { apply wf_delete_all. destruct (file_content m) as [f|] eqn:E; [now apply Hf|reflexivity]. }
  assert (Hfs' : forall k, k ∈ args -> Obj.has fs' k = false)
    by (intros k Hk; apply has_get_None; now apply get_delete_all_in).
  assert (Hbuf' : forall k, k ∈ args -> Obj.has buf' k = false)
    by (intros k Hk; apply has_get_None; now apply get_delete_all_in).
  destruct (dequal (JObj fs') (JObj (__proto__ (self m)))) eqn:Heq.
  - assert (Hm' : m' = mkMachine (with_buffer (self m) buf') (disk m) (new ++ trace m))
      by (unfold m', after; now rewrite Hrun).
    rewrite Hm'. apply remove_absent_run; unfold file_content;
      cbn [self disk with_buffer _store _filePath __proto__]; fold (file_content m).
    + intros k Hk. split; [now apply Hbuf'|].
      destruct Hsync as [Hnone|Hsome].
      * now rewrite Hnone.
      * rewrite Hsome. cbn [default from_option id].
        apply (delete_all_same_length args); [|exact Hk].
        apply dequal_obj_length in Heq. unfold fs' in Heq.
        rewrite Hsome in Heq. cbn [default from_option id] in Heq. now symmetry.
    + destruct Hsync as [Hnone|Hsome].
      * unfold fs' in Heq. rewrite Hnone in Heq |- *. cbn [default from_option id] in *.
        now rewrite delete_all_nil in Heq.
      * rewrite Hsome. cbn [default from_option id]. now apply dequal_refl.
  - set (m1 := mkMachine (with_buffer (self m) buf') (disk m) (new ++ trace m)) in *.
    assert (Hm' : m' = flushed m1 fs') by (unfold m', after; now rewrite Hrun).
    rewrite Hm'. apply remove_absent_run.
    + intros k Hk. rewrite flushed_self, flushed_file_content.
      cbn [_store default from_option id]. split; [reflexivity|now apply Hfs'].
    + rewrite flushed_self, flushed_file_content. cbn [__proto__ default from_option id].
      now apply dequal_refl.
Qed.

Lemma remove_twice_is_remove_once_witness :
  remove ["a"] (after (remove ["a"]) (after write pending_a))
  = (Returned tt, after (remove ["a"]) (after write pending_a)).
Proof.
  assert (Hinv : invariant (after write pending_a)).
  { apply invariant_write, (invariant_set (Set_obj [("a", JNum 1)]));
      [reflexivity|exact invariant_fresh_store]. }
  apply (remove_twice_is_remove_once ["a"] (after write pending_a)).
  - apply Hinv.
  - apply Hinv.
  - right. reflexivity.
Defined.

(** X13.  [set] pins what the instance reads.  [set] copies the whole
    merged view into the buffer, so a key that [get] reads right after a
    [set] is read from the buffer from then on: [get] returns the same
    value whatever the backing file holds afterwards, for instance after
    another instance of the same name has written to it. *)
Theorem set_pins_values_against_file_changes
    (obj : object) (m : Machine) (d' : Disk) (t' : list effect) (k : string) (v : json) :
  NoDup (Obj.keys obj) ->
  let m' := after (set (Set_obj obj)) m in
  result_of (get k) m' = Returned (Some v) ->
  result_of (get k) (mkMachine (self m') d' t') = Returned (Some v).
Proof.
  intros Hnd m'. subst m'. unfold after, result_of.
  rewrite set_run. cbn [snd self set_buffer]. rewrite !get_run. cbn [fst].
  rewrite (spread_id (merged_view m)) by apply NoDup_merged_view.
  set (buf' := Obj.assign (merged_view m) obj).
  assert (Hndb : NoDup (Obj.keys buf')) by apply NoDup_keys_assign, NoDup_merged_view.
  rewrite !merged_view_eq. unfold file_content.
  cbn [self disk with_buffer _store _filePath].
  rewrite (spread_id buf') by exact Hndb.
  rewrite !get_assign by exact Hndb.
  destruct (Obj.get buf' k) as [w|] eqn:Hb; [trivial|].
  (* a key missing from the new buffer is missing from the file as well *)
  unfold buf' in Hb. apply get_assign_None in Hb; [|exact Hnd].
  rewrite merged_view_eq in Hb.
  apply get_assign_None in Hb; [|apply NoDup_keys_spread].
  unfold file_content in Hb. rewrite Hb. discriminate.
Qed.

Lemma set_pins_values_against_file_changes_witness :
  result_of (get "a")
    (mkMachine (self pending_b_on_file) (disk_with [("a", JNum 5)]) [])
  = Returned (Some (JNum 1)).
Proof.
  apply (set_pins_values_against_file_changes [("b", JNum 2)]
           (boot (Some "s") (disk_with [("a", JNum 1)]))
           (disk_with [("a", JNum 5)]) [] "a" (JNum 1)).
  - apply nodup_keys_NoDup. reflexivity.
  - reflexivity.
Defined.

(** ** File names *)

Lemma string_of_hex_byte (c : ascii) (s : string) :
  string_of_hex (hex_byte c ++ s)%string = String c <$> string_of_hex s.
Proof.
  destruct c as [[] [] [] [] [] [] [] []];
    match goal with |- context [hex_byte ?c] =>
      let h := eval vm_compute in (hex_byte c) in change (hex_byte c) with h
    end;
    lazy beta iota delta [String.append];
    cbn [string_of_hex];
    destruct (string_of_hex s); vm_compute; reflexivity.
Qed.

Lemma string_of_hex_of_string (s : string) : string_of_hex (hex_of_string s) = Some s.
Proof.
  induction s as [|c s IH]; [reflexivity|].
  cbn [hex_of_string]. now rewrite string_of_hex_byte, IH.
Qed.

Lemma hex_of_string_inj (s1 s2 : string) :
  hex_of_string s1 = hex_of_string s2 -> s1 = s2.
Proof.
  intros H. apply (f_equal string_of_hex) in H.
  rewrite !string_of_hex_of_string in H. congruence.
Qed.

Lemma append_cons (c : ascii) (s t : string) :
  (String c s ++ t = String c (s ++ t))%string.
Proof. reflexivity. Qed.

Lemma append_inv_head (s t1 t2 : string) : (s ++ t1 = s ++ t2)%string -> t1 = t2.
Proof.
  induction s as [|c s IH]; [trivial|].
  rewrite !append_cons. intros [= H]. auto.
Qed.

Lemma append_inv_tail (t : string) :
  forall s1 s2 : string, (s1 ++ t = s2 ++ t)%string -> s1 = s2.
Proof.
  induction s1 as [|c s1 IH]; intros [|c' s2] H.
  - reflexivity.
  - apply (f_equal String.length) in H.
    rewrite !string_length_append in H. cbn [String.length] in H. lia.
  - apply (f_equal String.length) in H.
    rewrite !string_length_append in H. cbn [String.length] in H. lia.
  - rewrite !append_cons in H. injection H as -> H. f_equal. now apply IH.
Qed.

Lemma setFilePath_inj (dir n1 n2 : string) :
  setFilePath dir n1 = setFilePath dir n2 -> n1 = n2.
Proof.
  unfold setFilePath. intros H.
  apply append_inv_head in H. apply (append_inv_head "/$") in H.
  apply append_inv_tail in H. now apply hex_of_string_inj.
Qed.

(** X14.  Stores of different names have different backing files:
    [setFilePath] maps two names to the same path only when they are the
    same name, and the hexadecimal part of the path reads back as the
    name. *)
Theorem setFilePath_distinguishes_names (dir n1 n2 : string) :
  (setFilePath dir n1 = setFilePath dir n2 <-> n1 = n2)
  /\ string_of_hex (hex_of_string n1) = Some n1.
Proof.
  split; [|apply string_of_hex_of_string].
  split; [apply setFilePath_inj|now intros ->].
Qed.

(** ** One store among others *)

Lemma run_call_identity (c : call) (m : Machine) :
  events (self m) = events (new_Store None) ->
  identity (self (run_call c m)) = identity (self m).
Proof.
  intros He. destruct c as [args|key|keys|]; cbn [run_call]; unfold after.
  - now rewrite set_run.
  - now rewrite get_run.
  - destruct (remove_run keys m He) as (new & _ & Hrun). cbv zeta in Hrun.
    rewrite Hrun. destruct (dequal _ _); cbn [snd]; [reflexivity|].
    unfold identity. now rewrite flushed_self.
  - destruct (write_dichotomy m) as [Hp|(f & Hf & Heq)].
    + destruct (write_persist_after m Hp) as (Hs & _). unfold after in Hs.
      unfold identity. rewrite Hs, flushed_self. reflexivity.
    + now rewrite (write_noop_run m f Hf Heq).
Qed.

Lemma run_call_files_frame (c : call) (m : Machine) (p : string) :
  events (self m) = events (new_Store None) ->
  p <> _filePath (self m) ->
  files (disk (run_call c m)) !! p = files (disk m) !! p.
Proof.
  intros He Hp. destruct c as [args|key|keys|]; cbn [run_call]; unfold after.
  - now rewrite set_run.
  - now rewrite get_run.
  - destruct (remove_run keys m He) as (new & _ & Hrun). cbv zeta in Hrun.
    rewrite Hrun. destruct (dequal _ _); cbn [snd]; [reflexivity|].
    rewrite flushed_disk. cbn [files self disk with_buffer _filePath].
    now rewrite lookup_insert_ne.
  - destruct (write_dichotomy m) as [Hp'|(f & Hf & Heq)].
    + destruct (write_persist_after m Hp') as (_ & Hfiles & _). unfold after in Hfiles.
      rewrite Hfiles. now rewrite lookup_insert_ne.
    + now rewrite (write_noop_run m f Hf Heq).
Qed.

Lemma reachable_identity (name : option string) (d : Disk) (m : Machine) :
  reachable name d m -> identity (self m) = identity (new_Store name).
Proof.
  induction 1 as [|m c Hr IH Hc]; [reflexivity|].
  rewrite run_call_identity; [exact IH|].
  unfold identity in IH. now injection IH.
Qed.

Lemma reachable_files_frame (name : option string) (d : Disk) (m : Machine) (p : string) :
  reachable name d m ->
  p <> _filePath (new_Store name) ->
  files (disk m) !! p = files d !! p.
Proof.
  intros Hr Hp. induction Hr as [|m c Hr IH Hc]; [reflexivity|].
  pose proof (reachable_identity name d m Hr) as Hid.
  unfold identity in Hid. injection Hid as Hn Hd Hpath Hev Hmax.
  rewrite run_call_files_frame; [exact IH|exact Hev|now rewrite Hpath].
Qed.

(** X15.  Stores do not interfere.  Whatever calls are made on a store, a
    store of another name reads afterwards exactly what it read before:
    the calls touch no file but the store's own. *)
Theorem calls_leave_other_stores_unchanged
    (name other : option string) (d : Disk) (m : Machine) :
  reachable name d m ->
  default "lwe8_store"%string other <> default "lwe8_store"%string name ->
  (forall p, p <> _filePath (new_Store name) -> files (disk m) !! p = files d !! p)
  /\ merged_view (boot other (disk m)) = merged_view (boot other d)
  /\ forall k, result_of (get k) (boot other (disk m)) = result_of (get k) (boot other d).
Proof.
  intros Hr Hne.
  assert (Hframe : forall p, p <> _filePath (new_Store name) ->
                             files (disk m) !! p = files d !! p)
    by (intros p Hp; now apply (reachable_files_frame name)).
  assert (Hview : merged_view (boot other (disk m)) = merged_view (boot other d)).
  { rewrite !merged_view_eq. unfold file_content, boot. cbn [self disk _store].
    rewrite Hframe; [reflexivity|].
    cbn [new_Store _filePath]. intros H.
    apply setFilePath_inj in H. contradiction. }
  split; [exact Hframe|]. split; [exact Hview|].
  intros k. unfold result_of. rewrite !get_run. cbn [fst]. now rewrite Hview.
Qed.

Lemma calls_leave_other_stores_unchanged_witness :
  merged_view (boot (Some "t") (disk (after write pending_a)))
  = merged_view (boot (Some "t") empty_disk).
Proof.
  refine (proj1 (proj2 (calls_leave_other_stores_unchanged
            (Some "s") (Some "t") empty_disk (after write pending_a) _ _))).
  - apply (reachable_call (Some "s") empty_disk _ Call_write); [|reflexivity].
    apply (reachable_call (Some "s") empty_disk _ (Call_set (Set_obj [("a", JNum 1)])));
      [|reflexivity].
    apply reachable_boot.
  - discriminate.
Defined.

(** X16.  What an instance keeps through any sequence of public calls,
    starting from a new instance on a disk of JSON files: its name, store
    directory, file path, listeners and byte budget are those the
    constructor set, and its snapshot is either still empty or the content
    of its backing file. *)
Theorem reachable_instance_keeps_identity_and_snapshot
    (name : option string) (d : Disk) (m : Machine) :
  wf_disk d ->
  reachable name d m ->
  identity (self m) = identity (new_Store name)
  /\ (__proto__ (self m) = [] \/ file_content m = Some (__proto__ (self m))).
Proof.
  intros Hd Hr. split; [now apply (reachable_identity name d)|].
  apply (reachable_invariant name d m Hd Hr).
Qed.

Lemma reachable_instance_keeps_identity_and_snapshot_witness :
  identity (self (after write pending_a)) = identity (new_Store (Some "s"))
  /\ (__proto__ (self (after write pending_a)) = []
      \/ file_content (after write pending_a)
         = Some (__proto__ (self (after write pending_a)))).
Proof.
  apply (reachable_instance_keeps_identity_and_snapshot (Some "s") empty_disk).
  - intros p o H. unfold empty_disk in H. cbn [files] in H.
    rewrite lookup_empty in H. discriminate.
  - apply (reachable_call (Some "s") empty_disk _ Call_write); [|reflexivity].
    apply (reachable_call (Some "s") empty_disk _ (Call_set (Set_obj [("a", JNum 1)])));
      [|reflexivity].
    apply reachable_boot.
Defined.

(** ** More on the eviction helper *)

Lemma entry_size_nonneg (e : string * json) : 0 <= entry_size e.
Proof. unfold entry_size, bfo, byteLength. lia. Qed.

Lemma total_size_nonneg (l : object) : 0 <= total_size l.
Proof.
  induction l as [|e l IH]; simpl; [lia|].
  pose proof (entry_size_nonneg e). lia.
Qed.

Lemma total_size_Permutation (l1 l2 : object) :
  Permutation l1 l2 -> total_size l1 = total_size l2.
Proof. induction 1; simpl; lia. Qed.

Lemma total_size_sorted (obj : object) :
  total_size (sort_largest_first obj) = total_size obj.
Proof. apply total_size_Permutation, js_sort_Permutation. Qed.

Lemma greedy_accept_all (max : Z) (l : object) :
  forall total, total + total_size l <= max -> greedy_accept max l total = l.
Proof.
  induction l as [|e l IH]; intros total H; simpl in *; [reflexivity|].
  pose proof (total_size_nonneg l).
  destruct (Z.leb_spec (total + entry_size e) max) as [_|Hgt]; [|lia].
  f_equal. apply IH. lia.
Qed.

Lemma get_Some_elem_of (o : object) (k : string) (v : json) :
  Obj.get o k = Some v -> (k, v) ∈ o.
Proof.
  induction o as [|[k' v'] o IH]; simpl; [discriminate|].
  destruct (String.eqb_spec k' k) as [->|Hne].
  - intros [= ->]. apply list_elem_of_here.
  - intros H. apply list_elem_of_further, IH, H.
Qed.

Lemma sorted_head_largest (obj : object) (e0 : string * json) (rest : object) :
  sort_largest_first obj = e0 :: rest ->
  forall e, e ∈ obj -> entry_size e <= entry_size e0.
Proof.
  intros Hs e He.
  pose proof (sort_largest_first_sorted obj) as Hsorted.
  assert (He' : e ∈ sort_largest_first obj)
    by (unfold sort_largest_first; apply js_sort_elem_of, He).
  rewrite Hs in Hsorted, He'.
  apply StronglySorted_inv in Hsorted as [_ Hall].
  apply elem_of_cons in He' as [->|He']; [lia|].
  rewrite List.Forall_forall in Hall.
  apply Hall, list_elem_of_In, He'.
Qed.

Lemma json_quote_length (s : string) : (2 <= String.length (json_quote s))%nat.
Proof.
  unfold json_quote. cbn [String.length]. rewrite string_length_append.
  cbn [String.length]. lia.
Qed.

Lemma join_comma_entries_length (o : object) :
  o <> [] ->
  total_size o + 4 * Z.of_nat (length o)
  <= byteLength (join_comma
       (map (fun kv => json_quote (fst kv) ++ ":" ++ JSON_stringify (snd kv))%string o)) + 1.
Proof.
  induction o as [|[k v] o IH]; [congruence|]. intros _.
  assert (Hpart : entry_size (k, v) + 3
                  <= byteLength (json_quote k ++ ":" ++ JSON_stringify v)%string).
  { unfold entry_size, bfo, byteLength. cbn [snd].
    rewrite !string_length_append. cbn [String.length].
    pose proof (json_quote_length k). lia. }
  destruct o as [|e o'].
  - cbn [map join_comma total_size length fst snd]. lia.
  - specialize (IH ltac:(discriminate)).
    change (map ?f ((k, v) :: e :: o')) with (f (k, v) :: map f (e :: o')).
    cbn [fst snd].
    remember (map _ (e :: o')) as parts eqn:Hparts.
    assert (Hne : parts <> []) by (subst parts; discriminate).
    destruct parts as [|p ps]; [congruence|].
    change (join_comma (?a :: p :: ps)) with (a ++ "," ++ join_comma (p :: ps))%string.
    change (total_size ((k, v) :: e :: o')) with (entry_size (k, v) + total_size (e :: o')).
    change (length ((k, v) :: e :: o')) with (S (length (e :: o'))).
    unfold byteLength in *.
    rewrite !string_length_append in *. cbn [String.length] in *.
    lia.
Qed.

Lemma bfo_object_exceeds_total (o : object) :
  total_size o + 4 * Z.of_nat (length o) < bfo (JObj o).
Proof.
  destruct o as [|e o'].
  - vm_compute. reflexivity.
  - pose proof (join_comma_entries_length (e :: o') ltac:(discriminate)) as H.
    unfold bfo, byteLength in *. cbn [JSON_stringify].
    rewrite !string_length_append. cbn [String.length]. lia.
Qed.

(** X17.  [reduceByts]: when a single value is larger than the budget,
    the result is empty, whatever the other entries are: the entries are
    tried largest first and the loop stops at the first one that does not
    fit. *)
Theorem reduceByts_oversize_entry_empties_result
    (obj : object) (max : Z) (k : string) (v : json) :
  NoDup (Obj.keys obj) ->
  Obj.get obj k = Some v ->
  max < bfo v ->
  reduceByts obj max = [].
Proof.
  intros Hnd Hget Hbig.
  rewrite reduceByts_refines by exact Hnd. unfold reduce_spec.
  destruct (sort_largest_first obj) as [|e0 rest] eqn:Hs.
  - reflexivity.
  - pose proof (sorted_head_largest obj e0 rest Hs (k, v)
                  (get_Some_elem_of _ _ _ Hget)) as Hle.
    unfold entry_size in Hle at 1. cbn [snd] in Hle.
    cbn [greedy_accept].
    destruct (Z.leb_spec (0 + entry_size e0) max); [lia|reflexivity].
Qed.

Lemma reduceByts_oversize_entry_empties_result_witness :
  reduceByts [("a", JNum 1); ("b", JStr "hello"); ("c", JNum 2)] 6 = [].
Proof.
  apply (reduceByts_oversize_entry_empties_result _ 6 "b" (JStr "hello")).
  - apply nodup_keys_NoDup. reflexivity.
  - reflexivity.
  - vm_compute. reflexivity.
Defined.



(** X19.  The budget [reduceByts] enforces is not the size the byte-budget
    check measures: [reduceByts] adds up the serialized sizes of the values
    alone, while [emitEvent] takes [bfo] of the whole mapping, which also
    counts the quoted keys, colons, commas and braces (more than four bytes
    per entry).  A mapping whose values fit in [max] is returned whole,
    however far its serialization exceeds [max]. *)
Theorem reduceByts_result_may_exceed_budget (obj : object) (max : Z) :
  NoDup (Obj.keys obj) ->
  total_size obj <= max ->
  max < total_size obj + 4 * Z.of_nat (length obj) ->
  length (reduceByts obj max) = length obj
  /\ max < bfo (JObj (reduceByts obj max)).
Proof.
  intros Hnd Hfit Hover.
  assert (Heq : reduceByts obj max = sort_largest_first obj).
  { rewrite reduceByts_refines by exact Hnd. unfold reduce_spec.
    apply greedy_accept_all. rewrite total_size_sorted. lia. }
  rewrite Heq.
  assert (Hlen : length (sort_largest_first obj) = length obj)
    by apply js_sort_length.
  split; [exact Hlen|].
  pose proof (bfo_object_exceeds_total (sort_largest_first obj)) as H.
  rewrite total_size_sorted, Hlen in H. lia.
Qed.

Lemma reduceByts_result_may_exceed_budget_witness :
  length (reduceByts small_entries 22) = 3%nat
  /\ 22 < bfo (JObj (reduceByts small_entries 22)).
Proof.
  apply (reduceByts_result_may_exceed_budget small_entries 22).
  - apply nodup_keys_NoDup. reflexivity.
  - vm_compute. discriminate.
  - vm_compute. reflexivity.
Defined.

(** ** Records with values of any type *)

Section RecFacts.
Context {V : Type}.
Implicit Types (o : list (string * V)) (k : string) (v : V).

Lemma Rec_get_None o k : Rec.get o k = None <-> k ∉ Rec.keys o.
Proof.
  induction o as [|[k' v'] o IH]; cbn.
  - split; [intros _; apply not_elem_of_nil|reflexivity].
  - rewrite not_elem_of_cons. destruct (String.eqb_spec k' k) as [->|Hne].
    + split; [discriminate|intros [H _]; congruence].
    + rewrite IH. split; [intros H; split; [congruence|exact H]|tauto].
Qed.

Lemma Rec_set_fresh o k v : k ∉ Rec.keys o -> Rec.set o k v = o ++ [(k, v)].
Proof.
  induction o as [|[k' v'] o IH]; cbn; [reflexivity|].
  intros Hk. apply not_elem_of_cons in Hk as [Hne Hk].
  destruct (String.eqb_spec k' k) as [->|_]; [congruence|].
  now rewrite IH.
Qed.

Lemma Rec_get_set_eq o k v : Rec.get (Rec.set o k v) k = Some v.
Proof.
  induction o as [|[k' v'] o IH]; cbn.
  - now rewrite String.eqb_refl.
  - destruct (String.eqb_spec k' k) as [->|Hne]; cbn.
    + now rewrite String.eqb_refl.
    + destruct (String.eqb_spec k' k); [congruence|exact IH].
Qed.

Lemma Rec_get_set_ne o k k' v : k <> k' -> Rec.get (Rec.set o k v) k' = Rec.get o k'.
Proof.
  intros Hne. induction o as [|[k0 v0] o IH]; cbn.
  - destruct (String.eqb_spec k k'); [congruence|reflexivity].
  - destruct (String.eqb_spec k0 k) as [->|Hne0]; cbn.
    + destruct (String.eqb_spec k k'); [congruence|reflexivity].
    + destruct (String.eqb_spec k0 k'); [reflexivity|exact IH].
Qed.

Lemma Rec_get_app_fresh o1 o2 k :
  k ∉ Rec.keys o1 -> Rec.get (o1 ++ o2) k = Rec.get o2 k.
Proof.
  induction o1 as [|[k' v'] o1 IH]; cbn; [reflexivity|].
  intros Hk. apply not_elem_of_cons in Hk as [Hne Hk].
  destruct (String.eqb_spec k' k); [congruence|now apply IH].
Qed.

(** A loop of assignments to distinct new keys appends one property per
    turn. *)
Lemma fold_set_fresh {A : Type} (key : A -> string) (val : A -> V) (l : list A) :
  forall acc : list (string * V),
    NoDup (Rec.keys acc ++ map key l) ->
    fold_left (fun r a => Rec.set r (key a) (val a)) l acc
    = acc ++ map (fun a => (key a, val a)) l.
Proof.
  induction l as [|a l IH]; intros acc Hnd; cbn [fold_left map].
  - now rewrite app_nil_r.
  - cbn [map] in Hnd.
    assert (Ha : key a ∉ Rec.keys acc).
    { apply NoDup_app in Hnd as (_ & Hdis & _). intros Hin.
      apply (Hdis _ Hin). apply list_elem_of_here. }
    rewrite (Rec_set_fresh acc _ _ Ha). rewrite IH.
    + now rewrite <- app_assoc.
    + unfold Rec.keys in *. rewrite map_app. cbn [map fst].
      rewrite <- app_assoc. exact Hnd.
Qed.

Lemma Rec_get_map {A : Type} (key : A -> string) (val : A -> V) (l : list A) (a : A) :
  NoDup (map key l) -> a ∈ l ->
  Rec.get (map (fun a => (key a, val a)) l) (key a) = Some (val a).
Proof.
  induction l as [|b l IH]; intros Hnd Hin; [now apply elem_of_nil in Hin|].
  cbn [map] in *. apply NoDup_cons in Hnd as [Hb Hnd]. cbn [Rec.get].
  apply elem_of_cons in Hin as [->|Hin].
  - now rewrite String.eqb_refl.
  - destruct (String.eqb_spec (key b) (key a)) as [Heq|_]; [|now apply IH].
    exfalso. apply Hb. rewrite Heq.
    apply list_elem_of_In, in_map, list_elem_of_In, Hin.
Qed.

Lemma Rec_keys_map {A : Type} (key : A -> string) (val : A -> V) (l : list A) :
  Rec.keys (map (fun a => (key a, val a)) l) = map key l.
Proof. unfold Rec.keys. rewrite map_map. reflexivity. Qed.

End RecFacts.

Lemma Obj_set_Rec (o : object) (k : string) (v : json) : Obj.set o k v = Rec.set o k v.
Proof. reflexivity. Qed.

Lemma Obj_get_Rec (o : object) (k : string) : Obj.get o k = Rec.get o k.
Proof. reflexivity. Qed.

Lemma map_lookup_seq {A : Type} (x : A) (l : list A) :
  map (fun i => default x (l !! i)) (seq 0 (length l)) = l.
Proof.
  induction l as [|a l IH]; [reflexivity|].
  cbn [length seq map]. f_equal.
  rewrite <- seq_shift, map_map. exact IH.
Qed.

(** ** The object helpers *)

(** The loop of [mapObject] on an object is a map over its entries. *)
Lemma mapObject_entries (o : object) (fn : json -> string -> object -> json) :
  NoDup (Obj.keys o) ->
  _obj.mapObject o fn = map (fun kv => (fst kv, fn (snd kv) (fst kv) o)) o.
Proof.
  intros Hnd. unfold _obj.mapObject.
  exact (fold_set_fresh fst (fun kv => fn (snd kv) (fst kv) o) o [] Hnd).
Qed.

Lemma get_map_entries (f : string -> json -> json) (o : object) (k : string) :
  Obj.get (map (fun kv => (fst kv, f (fst kv) (snd kv))) o) k = f k <$> Obj.get o k.
Proof.
  induction o as [|[k' v'] o IH]; [reflexivity|].
  cbn [map Obj.get fst snd].
  destruct (String.eqb_spec k' k) as [->|_]; [reflexivity|exact IH].
Qed.

(** X20.  [mapObject] keeps the keys of the object, in their order, and
    replaces the value [v] of each key [k] by [fn(v, k, object)], where
    the third argument is the object given, not the result being
    built. *)
Theorem mapObject_maps_each_value (o : object) (fn : json -> string -> object -> json) :
  NoDup (Obj.keys o) ->
  Obj.keys (_obj.mapObject o fn) = Obj.keys o
  /\ forall k, Obj.get (_obj.mapObject o fn) k = (fun v => fn v k o) <$> Obj.get o k.
Proof.
  intros Hnd. rewrite (mapObject_entries o fn Hnd). split.
  - unfold Obj.keys. rewrite map_map. reflexivity.
  - intros k. apply (get_map_entries (fun k v => fn v k o)).
Qed.

Lemma mapObject_maps_each_value_witness :
  Obj.keys (_obj.mapObject [("a", JNum 1); ("b", JNum 2)]
              (fun v _ _ => match v with JNum n => JNum (n * 2) | _ => v end))
  = ["a"; "b"]
  /\ forall k,
       Obj.get (_obj.mapObject [("a", JNum 1); ("b", JNum 2)]
                  (fun v _ _ => match v with JNum n => JNum (n * 2) | _ => v end)) k
       = (fun v => match v with JNum n => JNum (n * 2) | _ => v end)
           <$> Obj.get [("a", JNum 1); ("b", JNum 2)] k.
Proof.
  apply (mapObject_maps_each_value [("a", JNum 1); ("b", JNum 2)]).
  apply nodup_keys_NoDup. reflexivity.
Defined.

(** X21.  [mapValues] returns an object, not an array of pairs: it has
    the keys of the object given, and under each key [k] the two-element
    array [[k, fn(v, k, object)]]; the array of pairs its description
    announces is the list of its values. *)
Theorem mapValues_returns_object_of_pairs (o : object) (fn : json -> string -> object -> json) :
  NoDup (Obj.keys o) ->
  Obj.keys (_obj.mapValues o fn) = Obj.keys o
  /\ map snd (_obj.mapValues o fn)
     = map (fun kv => JArr [JStr (fst kv); fn (snd kv) (fst kv) o]) o
  /\ forall k v, Obj.get o k = Some v ->
       Obj.get (_obj.mapValues o fn) k = Some (JArr [JStr k; fn v k o]).
Proof.
  intros Hnd. unfold _obj.mapValues.
  rewrite (mapObject_entries o _ Hnd). split; [|split].
  - unfold Obj.keys. rewrite map_map. reflexivity.
  - rewrite map_map. reflexivity.
  - intros k v Hget.
    rewrite (get_map_entries (fun k v => JArr [JStr k; fn v k o])).
    now rewrite Hget.
Qed.

Lemma mapValues_returns_object_of_pairs_witness :
  _obj.mapValues [("a", JNum 1); ("b", JNum 2)] (fun v _ _ => v)
  = [("a", JArr [JStr "a"; JNum 1]); ("b", JArr [JStr "b"; JNum 2])]
  /\ Obj.keys (_obj.mapValues [("a", JNum 1); ("b", JNum 2)] (fun v _ _ => v))
     = ["a"; "b"].
Proof.
  split; [reflexivity|].
  apply (mapValues_returns_object_of_pairs [("a", JNum 1); ("b", JNum 2)]).
  apply nodup_keys_NoDup. reflexivity.
Defined.

Lemma get_spread_doc (doc : object) (f : string) :
  NoDup (Obj.keys doc) ->
  Rec.get (_obj.spread_doc doc) f = Some <$> Obj.get doc f.
Proof.
  intros Hnd. unfold _obj.spread_doc.
  rewrite (fold_set_fresh fst (fun kv => Some (snd kv)) doc [] Hnd).
  cbn [app]. clear Hnd.
  induction doc as [|[k v] doc IH]; [reflexivity|].
  cbn [map Rec.get Obj.get fst snd].
  destruct (String.eqb_spec k f); [reflexivity|exact IH].
Qed.

Lemma Rec_get_middle {V : Type} (before after : list (string * V)) (k : string) (v : V) :
  NoDup (Rec.keys (before ++ (k, v) :: after)) ->
  Rec.get (before ++ (k, v) :: after) k = Some v.
Proof.
  intros Hnd. rewrite Rec_get_app_fresh.
  - cbn. now rewrite String.eqb_refl.
  - unfold Rec.keys in *. rewrite map_app in Hnd. cbn [map fst] in Hnd.
    apply NoDup_app in Hnd as (_ & Hdis & _). intros Hin.
    apply (Hdis _ Hin). apply list_elem_of_here.
Qed.

(** What [addNextPrevious] stores under the key of a document, in terms
    of the keys before and after it. *)
Lemma addNextPrevious_at (docs before after : list (string * object))
    (k : string) (d : object) :
  NoDup (Rec.keys docs) ->
  docs = before ++ (k, d) :: after ->
  Rec.keys (_obj.addNextPrevious docs) = Rec.keys docs
  /\ Rec.get (_obj.addNextPrevious docs) k
     = Some (Rec.set
               (Rec.set (_obj.spread_doc d) "nextKey"
                        (_obj.or_undefined (head (Rec.keys after))))
               "previousKey" (JStr <$> last (Rec.keys before))).
Proof.
  intros Hnd Hdocs. unfold _obj.addNextPrevious. cbv zeta.
  set (keys := Rec.keys docs) in *.
  pose (key := fun i : nat => default "undefined"%string (keys !! i)).
  pose (val := fun i : nat =>
     Rec.set
       (Rec.set (_obj.spread_doc (default [] (Rec.get docs (key i)))) "nextKey"
                (_obj.or_undefined (keys !! (i + 1)%nat)))
       "previousKey"
       (if (0 <? i)%nat then JStr <$> keys !! (i - 1)%nat else None)).
  change (fold_left (_obj.addNextPrevious_step docs keys) (seq 0 (length keys)) [])
    with (fold_left (fun r a => Rec.set r (key a) (val a)) (seq 0 (length keys)) []).
  assert (Hkeys : map key (seq 0 (length keys)) = keys) by apply map_lookup_seq.
  rewrite (fold_set_fresh key val (seq 0 (length keys)) []);
    [|cbn [Rec.keys map app]; now rewrite Hkeys].
  cbn [app]. split; [now rewrite Rec_keys_map|].
  assert (Hk : keys = Rec.keys before ++ k :: Rec.keys after).
  { unfold keys, Rec.keys. rewrite Hdocs, map_app. reflexivity. }
  set (i0 := length (Rec.keys before)).
  assert (Hi0 : keys !! i0 = Some k) by (rewrite Hk; apply list_lookup_middle; reflexivity).
  assert (Hkey : key i0 = k) by (unfold key; now rewrite Hi0).
  rewrite <- Hkey at 1.
  rewrite (Rec_get_map key val).
  - f_equal. unfold val. rewrite Hkey.
    assert (Hd : Rec.get docs k = Some d).
    { rewrite Hdocs. apply Rec_get_middle. rewrite <- Hdocs. exact Hnd. }
    rewrite Hd. cbn [default from_option id].
    assert (Hnext : keys !! (i0 + 1)%nat = head (Rec.keys after)).
    { rewrite Hk. rewrite lookup_app_r by (unfold i0; lia).
      replace (i0 + 1 - length (Rec.keys before))%nat with 1%nat by (unfold i0; lia).
      cbn. now destruct (Rec.keys after). }
    rewrite Hnext. f_equal.
    destruct (Nat.ltb_spec 0 i0) as [Hpos|Hzero].
    + rewrite Hk. rewrite lookup_app_l by (unfold i0 in *; lia).
      rewrite last_lookup. f_equal. f_equal. unfold i0. lia.
    + assert (Hnil : Rec.keys before = []).
      { destruct (Rec.keys before); [reflexivity|]. unfold i0 in Hzero. cbn in Hzero. lia. }
      now rewrite Hnil.
  - now rewrite Hkeys.
  - apply list_elem_of_In, in_seq. apply lookup_lt_Some in Hi0. lia.
Qed.

(** X22.  [addNextPrevious] keeps the keys of [docs] in their order and
    stores under each key a copy of its document with two links:
    [previousKey] is the key just before it ([undefined] for the first
    document), [nextKey] the key just after it ([undefined] for the last
    one); every other field of the document is kept with its value, and a
    field of the document named [nextKey] or [previousKey] is
    overwritten. *)
Theorem addNextPrevious_links_neighbours (docs before after : list (string * object))
    (k : string) (d : object) :
  NoDup (Rec.keys docs) ->
  NoDup (Obj.keys d) ->
  docs = before ++ (k, d) :: after ->
  Rec.keys (_obj.addNextPrevious docs) = Rec.keys docs
  /\ exists linked,
       Rec.get (_obj.addNextPrevious docs) k = Some linked
       /\ Rec.get linked "previousKey" = Some (JStr <$> last (Rec.keys before))
       /\ Rec.get linked "nextKey"
          = Some (_obj.or_undefined (head (Rec.keys after)))
       /\ forall f, f <> "nextKey"%string -> f <> "previousKey"%string ->
            Rec.get linked f = Some <$> Obj.get d f.
Proof.
  intros Hnd Hd Hdocs.
  destruct (addNextPrevious_at docs before after k d Hnd Hdocs) as (Hkeys & Hget).
  split; [exact Hkeys|].
  eexists. split; [exact Hget|]. split; [|split].
  - apply Rec_get_set_eq.
  - rewrite Rec_get_set_ne by discriminate. apply Rec_get_set_eq.
  - intros f Hn Hp.
    rewrite Rec_get_set_ne by congruence.
    rewrite Rec_get_set_ne by congruence.
    now apply get_spread_doc.
Qed.

Lemma addNextPrevious_links_neighbours_witness :
  exists linked,
    Rec.get (_obj.addNextPrevious
               [("x", [("n", JNum 1)]); ("y", [("n", JNum 2)]); ("z", [])]) "y"
    = Some linked
    /\ Rec.get linked "previousKey" = Some (Some (JStr "x"))
    /\ Rec.get linked "nextKey" = Some (Some (JStr "z"))
    /\ forall f, f <> "nextKey"%string -> f <> "previousKey"%string ->
         Rec.get linked f = Some <$> Obj.get [("n", JNum 2)] f.
Proof.
  apply (proj2 (addNextPrevious_links_neighbours
                  [("x", [("n", JNum 1)]); ("y", [("n", JNum 2)]); ("z", [])]
                  [("x", [("n", JNum 1)])] [("z", [])] "y" [("n", JNum 2)]
                  ltac:(apply nodup_keys_NoDup; reflexivity)
                  ltac:(apply nodup_keys_NoDup; reflexivity)
                  eq_refl)).
Defined.

(** X23.  The two links treat an empty key differently.  A document
    whose successor has the empty string as its key gets [nextKey]
    [undefined], as if it were the last one ([keys[i + 1] || undefined]),
    while that successor does get the document's key as its
    [previousKey]; and a document that follows the empty key gets the
    empty string as its [previousKey]. *)
Theorem addNextPrevious_empty_key_is_no_nextKey
    (docs before after : list (string * object)) (k : string) (d e : object) :
  NoDup (Rec.keys docs) ->
  docs = before ++ (k, d) :: (""%string, e) :: after ->
  (exists linked, Rec.get (_obj.addNextPrevious docs) k = Some linked
                  /\ Rec.get linked "nextKey" = Some None)
  /\ (exists linked, Rec.get (_obj.addNextPrevious docs) "" = Some linked
                     /\ Rec.get linked "previousKey" = Some (Some (JStr k)))
  /\ forall k' d' rest, after = (k', d') :: rest ->
       exists linked, Rec.get (_obj.addNextPrevious docs) k' = Some linked
                      /\ Rec.get linked "previousKey" = Some (Some (JStr "")).
Proof.
  intros Hnd Hdocs. split; [|split].
  - destruct (addNextPrevious_at docs before ((""%string, e) :: after) k d Hnd Hdocs)
      as (_ & Hget).
    eexists. split; [exact Hget|].
    rewrite Rec_get_set_ne by discriminate. apply Rec_get_set_eq.
  - assert (Hdocs' : docs = (before ++ [(k, d)]) ++ (""%string, e) :: after)
      by (now rewrite <- app_assoc).
    destruct (addNextPrevious_at docs _ _ _ _ Hnd Hdocs') as (_ & Hget).
    eexists. split; [exact Hget|].
    rewrite Rec_get_set_eq. unfold Rec.keys. rewrite map_app. cbn [map fst].
    rewrite last_snoc. reflexivity.
  - intros k' d' rest ->.
    assert (Hdocs' : docs = (before ++ [(k, d); (""%string, e)]) ++ (k', d') :: rest)
      by (now rewrite <- app_assoc).
    destruct (addNextPrevious_at docs _ _ _ _ Hnd Hdocs') as (_ & Hget).
    eexists. split; [exact Hget|].
    rewrite Rec_get_set_eq. unfold Rec.keys. rewrite map_app.
    change (map fst [(k, d); (""%string, e)]) with ([k] ++ [""%string]).
    rewrite app_assoc, last_snoc. reflexivity.
Qed.

Lemma addNextPrevious_empty_key_is_no_nextKey_witness :
  exists linked,
    Rec.get (_obj.addNextPrevious [("x", []); ("", []); ("z", [])]) "x" = Some linked
    /\ Rec.get linked "nextKey" = Some None.
Proof.
  apply (proj1 (addNextPrevious_empty_key_is_no_nextKey
                  [("x", []); ("", []); ("z", [])] [] [("z", [])] "x" [] []
                  ltac:(apply nodup_keys_NoDup; reflexivity) eq_refl)).
Defined.
